(** * Page selection and markdown clean-up of the Mistral OCR MCP server

    A shallow embedding of the three pure utility functions shared by the
    local server and the edge worker ([parsePageSpec], [markdownToText],
    [cleanMarkdownContent]) together with the JavaScript string, number,
    [Set], [Map] and regular-expression primitives they call.

    Conventions of the embedding.
    - A JavaScript string is the list of its UTF-16 code units ([list N]).
    - A JavaScript number is [NaN] or an integer [Num z], and arithmetic on
      it is exact. The functions build numbers with [parseInt] and [i++]
      only, which are exact on doubles of magnitude up to 2^53; a numeral
      past that is rounded by [parseInt], which the embedding does not
      follow. Negative zero is not told apart from zero.
    - A thrown [Error] is a value of [result]; the message templates of the
      source are the constructors of [Error].
    - [Set<number>] keeps insertion order ([Array.from] observes it), so it
      is a duplicate-free list; [Map<string, number>] and [Set<string>] are
      only queried by key, so they are [gmap] and [gset]. *)

From Stdlib Require Import ZArith NArith QArith Qround Ascii String.
From stdpp Require Import base option list gmap.

Local Open Scope N_scope.

(** ** JavaScript strings *)

Abbreviation str := (list N).

(** A string literal of the source: [\n] is the line feed, every other
    character stands for its own code unit. *)
Fixpoint lit (s : string) : str :=
  match s with
  | EmptyString => []
  | String "\" (String "n" r) => 10 :: lit r
  | String c r => N_of_ascii c :: lit r
  end.

Module JS.

(** WhiteSpace and LineTerminator code units, as stripped by
    [String.prototype.trim] and skipped by [parseInt]. *)
Definition isWhiteSpace (c : N) : bool :=
  bool_decide (c ∈ [0x9; 0xA; 0xB; 0xC; 0xD; 0x20; 0xA0; 0x1680;
                    0x2028; 0x2029; 0x202F; 0x205F; 0x3000; 0xFEFF])
  || ((0x2000 <=? c) && (c <=? 0x200A)).

Fixpoint dropWhile {A} (p : A → bool) (s : list A) : list A :=
  match s with
  | [] => []
  | c :: r => if p c then dropWhile p r else s
  end.

Fixpoint takeWhile {A} (p : A → bool) (s : list A) : list A :=
  match s with
  | [] => []
  | c :: r => if p c then c :: takeWhile p r else []
  end.

Definition trimStart (s : str) : str := dropWhile isWhiteSpace s.
Definition trimEnd (s : str) : str := rev (dropWhile isWhiteSpace (rev s)).
Definition trim (s : str) : str := trimEnd (trimStart s).

(** [s.startsWith(p)] *)
Fixpoint startsWith (p s : str) : bool :=
  match p, s with
  | [], _ => true
  | _ :: _, [] => false
  | a :: p', b :: s' => (a =? b) && startsWith p' s'
  end.

(** [s.includes(p)] *)
Fixpoint includes (p s : str) : bool :=
  startsWith p s || match s with [] => false | _ :: r => includes p r end.

(** [s.split(sep)] for a separator of one code unit, the only kind the
    source uses ([","], ["-"], ["\n"]). *)
Fixpoint split (sep : N) (s : str) : list str :=
  match s with
  | [] => [[]]
  | c :: r =>
      if c =? sep then [] :: split sep r
      else match split sep r with
           | h :: t => (c :: h) :: t
           | [] => [[c]]
           end
  end.

(** [a.join(sep)] *)
Fixpoint join (sep : str) (a : list str) : str :=
  match a with
  | [] => []
  | x :: r => match r with [] => x | _ :: _ => x ++ sep ++ join sep r end
  end.

(** *** Numbers *)

Inductive number := NaN | Num (z : Z).

#[global] Instance number_eq_dec : EqDecision number.
Proof. solve_decision. Defined.

(** [a < b], [a > b], [a <= b]: every comparison with [NaN] is false. *)
Definition lt (a b : number) : bool :=
  match a, b with Num x, Num y => (x <? y)%Z | _, _ => false end.
Definition gt (a b : number) : bool := lt b a.
Definition le (a b : number) : bool :=
  match a, b with Num x, Num y => (x <=? y)%Z | _, _ => false end.

Definition isDigit (c : N) : bool := (48 <=? c) && (c <=? 57).
Definition digitValue (c : N) : Z := Z.of_N (c - 48).

(** [parseInt(s, 10)]: skip leading white space, read an optional sign,
    then the longest run of decimal digits; [NaN] when that run is empty.
    Whatever follows the digits is ignored. *)
Definition parseInt (s : str) : number :=
  let s1 := trimStart s in
  let '(sign, s2) :=
    match s1 with
    | 45 :: r => ((-1)%Z, r)
    | 43 :: r => (1%Z, r)
    | _ => (1%Z, s1)
    end in
  match takeWhile isDigit s2 with
  | [] => NaN
  | ds => Num (sign * foldl (λ acc d, 10 * acc + digitValue d)%Z 0%Z ds)
  end.

(** *** Set<number>, in insertion order; [add] uses SameValueZero, under
    which [NaN] equals itself. *)
Definition Set_add (x : number) (s : list number) : list number :=
  if decide (x ∈ s) then s else s ++ [x].

End JS.

Import JS.

(** ** parsePageSpec *)

(** The [Error]s thrown by [parsePageSpec], one constructor per message
    template, carrying the values the template interpolates. *)
Inductive Error :=
  | PositiveToken (trimmed : str)
      (* Page numbers must be positive (got '${trimmed}') *)
  | RangeFormat (trimmed : str)
      (* Invalid page range format: '${trimmed}' (expected format: '11-20') *)
  | PositiveRange (start end_ : number)
      (* Page numbers must be positive (got ${start}-${end}) *)
  | RangeOrder (start end_ : number)
      (* Invalid page range: ${start}-${end} (start must be <= end) *)
  | PositivePage (pageNum : number).
      (* Page numbers must be positive (got ${pageNum}) *)

Inductive result (A : Type) :=
  | Ok (a : A)
  | Throw (e : Error).
Arguments Ok {A} a.
Arguments Throw {A} e.

(** [i++] *)
Definition incr (i : number) : number :=
  match i with Num z => Num (z + 1) | NaN => NaN end.

(** [for (let i = start; i <= end; i++) pages.add(i)], run for at most
    [fuel] iterations. *)
Fixpoint rangeLoop (fuel : nat) (i end_ : number) (pages : list number)
    : list number :=
  match fuel with
  | O => pages
  | S fuel' =>
      if le i end_ then rangeLoop fuel' (incr i) end_ (Set_add i pages)
      else pages
  end.

(** The number of times the loop test [i <= end] succeeds: none when
    [start] or [end] is [NaN], otherwise [end - start + 1] (none when
    [end < start]). [rangeLoop_fuel] shows that the loop has stopped by
    then. *)
Definition iterations (start end_ : number) : nat :=
  match start, end_ with
  | Num a, Num b => Z.to_nat (b - a + 1)
  | _, _ => O
  end.

Definition addRange (start end_ : number) (pages : list number) : list number :=
  rangeLoop (iterations start end_) start end_ pages.

(** Body of the loop over the comma-separated parts. *)
Definition addPart (pages : list number) (part : str) : result (list number) :=
  let trimmed := trim part in
  if includes (lit "-") trimmed then
    if startsWith (lit "-") trimmed then Throw (PositiveToken trimmed)
    else
      match split 45 trimmed with
      | [p0; p1] =>
          let start := parseInt (trim p0) in
          let end_ := parseInt (trim p1) in
          if lt start (Num 1) || lt end_ (Num 1) then Throw (PositiveRange start end_)
          else if gt start end_ then Throw (RangeOrder start end_)
          else Ok (addRange start end_ pages)
      | _ => Throw (RangeFormat trimmed)
      end
  else
    let pageNum := parseInt trimmed in
    if lt pageNum (Num 1) then Throw (PositivePage pageNum)
    else Ok (Set_add pageNum pages).

Fixpoint addParts (pages : list number) (parts : list str) : result (list number) :=
  match parts with
  | [] => Ok pages
  | part :: rest =>
      match addPart pages part with
      | Ok pages' => addParts pages' rest
      | Throw e => Throw e
      end
  end.

Definition parsePageSpec (pageSpec : str) : result (list number) :=
  addParts [] (split 44 pageSpec).


(** ** Regular expressions

    The fragment of ECMAScript regular expressions the source uses: a
    sequence of one-code-unit matchers, each taken once or under a greedy
    or lazy quantifier with a lower bound, with an optional [^] in front
    and [$] behind. Matching is the backtracking search of the language
    definition. *)
Module Regex.

Definition code (a : ascii) : N := N_of_ascii a.
Arguments code a%_char.

(** A literal character. *)
Definition chr (a : ascii) : N → bool := λ c, c =? code a.
Arguments chr a%_char c.

(** Canonicalize of the [i] flag (without [u]) on ASCII: a lower-case
    letter becomes its capital. A code unit of 128 or more is never mapped
    below 128, so it never matches an ASCII literal. *)
Definition canonicalize (c : N) : N :=
  if (97 <=? c) && (c <=? 122) then c - 32 else c.

(** A literal character under the [i] flag. *)
Definition chrI (a : ascii) : N → bool :=
  λ c, canonicalize c =? canonicalize (code a).
Arguments chrI a%_char c.

(** [\d] *)
Definition digit : N → bool := isDigit.

Definition isLineTerminator (c : N) : bool :=
  bool_decide (c ∈ [0xA; 0xD; 0x2028; 0x2029]).

(** [.] (no [s] flag) *)
Definition dot : N → bool := λ c, negb (isLineTerminator c).

(** [[abc]] and [[^abc]] *)
Definition anyOf (l : string) : N → bool := λ c, bool_decide (c ∈ lit l).
Definition noneOf (l : string) : N → bool := λ c, negb (anyOf l c).

Inductive node :=
  | One (p : N → bool)
      (* a literal, a class or the dot *)
  | Many (p : N → bool) (lo : nat) (greedy : bool)
      (* p{lo,} when greedy, p{lo,}? when lazy; [*] is lo = 0, [+] is lo = 1 *)
  | AtEnd.
      (* $ (no [m] flag) *)

Record regex := { anchored : bool; nodes : list node }.

Definition push {R} (c : N) (m : option (str * R)) : option (str * R) :=
  match m with Some (seg, x) => Some (c :: seg, x) | None => None end.

Definition stop {R} (k : str → option R) (s : str) : option (str * R) :=
  match k s with Some x => Some ([], x) | None => None end.

(** A quantified matcher followed by the continuation [k]: the text the
    quantifier takes and the result of [k] on what is left. A greedy
    quantifier first tries to take one more code unit and falls back on
    [k]; a lazy one first tries [k]. *)
Fixpoint many {R} (p : N → bool) (lo : nat) (greedy : bool)
    (k : str → option R) (s : str) : option (str * R) :=
  match lo, s with
  | S lo', c :: r => if p c then push c (many p lo' greedy k r) else None
  | S _, [] => None
  | O, [] => stop k []
  | O, c :: r =>
      if greedy then
        match (if p c then push c (many p O greedy k r) else None) with
        | Some m => Some m
        | None => stop k s
        end
      else
        match stop k s with
        | Some m => Some m
        | None => if p c then push c (many p O greedy k r) else None
        end
  end.

(** Match the nodes at the start of [s]: the text taken by each node and
    the rest of [s]. *)
Fixpoint matchNodes (ns : list node) (s : str) : option (list str * str) :=
  match ns with
  | [] => Some ([], s)
  | One p :: ns' =>
      match s with
      | c :: r =>
          if p c then
            match matchNodes ns' r with
            | Some (segs, rest) => Some ([c] :: segs, rest)
            | None => None
            end
          else None
      | [] => None
      end
  | Many p lo greedy :: ns' =>
      match many p lo greedy (matchNodes ns') s with
      | Some (seg, (segs, rest)) => Some (seg :: segs, rest)
      | None => None
      end
  | AtEnd :: ns' =>
      match s with
      | [] =>
          match matchNodes ns' [] with
          | Some (segs, rest) => Some ([] :: segs, rest)
          | None => None
          end
      | _ :: _ => None
      end
  end.

Definition matchesAt (ns : list node) (s : str) : bool :=
  match matchNodes ns s with Some _ => true | None => false end.

Fixpoint search (ns : list node) (s : str) : bool :=
  matchesAt ns s || match s with [] => false | _ :: r => search ns r end.

(** [s.match(re)] is not [null]. *)
Definition matches (re : regex) (s : str) : bool :=
  if anchored re then matchesAt (nodes re) s else search (nodes re) s.

(** [s.replace(re, repl)] for an unanchored [re] with the [g] flag, with
    [skip] code units of the previous match still to pass. [repl] builds
    the replacement from the text taken by each node. After an empty match
    the search resumes one code unit further. *)
Fixpoint replaceFrom (ns : list node) (repl : list str → str)
    (skip : nat) (s : str) : str :=
  match s with
  | [] =>
      match skip, matchNodes ns [] with
      | O, Some (segs, _) => repl segs
      | _, _ => []
      end
  | c :: r =>
      match skip with
      | S k => replaceFrom ns repl k r
      | O =>
          match matchNodes ns s with
          | Some (segs, _) =>
              repl segs ++
              match length (concat segs) with
              | O => c :: replaceFrom ns repl O r
              | S k => replaceFrom ns repl k r
              end
          | None => c :: replaceFrom ns repl O r
          end
      end
  end.

Definition replace (re : regex) (repl : list str → str) (s : str) : str :=
  replaceFrom (nodes re) repl O s.

End Regex.

Import Regex.

(** ** markdownToText *)

(** [/!\[.*?\]\(.*?\)/g] *)
Definition imageRe : regex :=
  {| anchored := false;
     nodes := [One (chr "!"); One (chr "["); Many dot 0 false; One (chr "]");
               One (chr "("); Many dot 0 false; One (chr ")")] |}.

(** [/\[([^\]]+)\]\([^\)]+\)/g]; the group is node 1. *)
Definition linkRe : regex :=
  {| anchored := false;
     nodes := [One (chr "["); Many (noneOf "]") 1 true; One (chr "]");
               One (chr "("); Many (noneOf ")") 1 true; One (chr ")")] |}.

(** [/[#*_`~]+/g] *)
Definition emphasisRe : regex :=
  {| anchored := false; nodes := [Many (anyOf "#*_`~") 1 true] |}.

(** [/\n{3,}/g] *)
Definition newlinesRe : regex :=
  {| anchored := false; nodes := [Many (λ c, c =? 10) 3 true] |}.

Definition markdownToText (content : str) : str :=
  let text := content in
  let text := replace imageRe (λ _, []) text in
  let text := replace linkRe (λ segs, default [] (segs !! 1%nat)) text in
  let text := replace emphasisRe (λ _, []) text in
  let text := replace newlinesRe (λ _, lit "\n\n") text in
  trim text.

(** ** cleanMarkdownContent *)

(** [/^Page \d+/i] *)
Definition pageRe : regex :=
  {| anchored := true;
     nodes := [One (chrI "P"); One (chrI "a"); One (chrI "g"); One (chrI "e");
               One (chr " "); Many digit 1 true] |}.

(** [/^\[\d+\]/] *)
Definition footnoteRe : regex :=
  {| anchored := true;
     nodes := [One (chr "["); Many digit 1 true; One (chr "]")] |}.

(** [/doi:/i] *)
Definition doiRe : regex :=
  {| anchored := false;
     nodes := [One (chrI "d"); One (chrI "o"); One (chrI "i"); One (chr ":")] |}.

(** [/^\d+$/] *)
Definition numberRe : regex :=
  {| anchored := true; nodes := [Many digit 1 true; AtEnd] |}.

(** First loop: count the occurrences of each non-empty trimmed line. *)
Definition countLine (lineCounts : gmap str nat) (line : str) : gmap str nat :=
  let trimmed := trim line in
  if (0 <? length trimmed)%nat
  then <[trimmed := (default 0 (lineCounts !! trimmed) + 1)%nat]> lineCounts
  else lineCounts.

Definition countLines (lines : list str) : gmap str nat :=
  foldl countLine ∅ lines.

(** Second loop: the lines counted three times or more that match none of
    the four preserved shapes. *)
Definition addRepetitive (line : str) (count : nat) (repetitiveLines : gset str)
    : gset str :=
  if (3 <=? count)%nat then
    if negb (matches pageRe line) && negb (matches footnoteRe line)
       && negb (matches doiRe line) && negb (matches numberRe line)
    then {[line]} ∪ repetitiveLines
    else repetitiveLines
  else repetitiveLines.

Definition findRepetitive (lineCounts : gmap str nat) : gset str :=
  map_fold addRepetitive ∅ lineCounts.

(** The callback of [lines.filter]. *)
Definition keepLine (repetitiveLines : gset str) (line : str) : bool :=
  let trimmed := trim line in
  (length trimmed =? 0)%nat || negb (bool_decide (trimmed ∈ repetitiveLines)).

Definition cleanMarkdownContent (content : str) : str * str :=
  let lines := split 10 content in
  let lineCounts := countLines lines in
  let repetitiveLines := findRepetitive lineCounts in
  let cleanedLines := filter (λ line, keepLine repetitiveLines line) lines in
  let cleanedContent := join (lit "\n") cleanedLines in
  (cleanedContent, lit "lightweight inline deduplication").

(** The array the filter builds, before it is joined. *)
Definition cleanedLines (content : str) : list str :=
  let lines := split 10 content in
  filter (λ line, keepLine (findRepetitive (countLines lines)) line) lines.

(** The four tests of the second loop, taken together. *)
Definition isPreserved (line : str) : bool :=
  matches pageRe line || matches footnoteRe line
  || matches doiRe line || matches numberRe line.

(** ** The clean-up tool handler

    The [reduction_percent] field of the [mistral_ocr_clean_markdown]
    reply. The handler computes it in double precision; here the same
    expression is evaluated in exact rationals. Division, subtraction from
    1, the two products and [Math.round] are monotone in double precision
    and exact at 0, so the sign of the result is the same. *)

(** [Math.round(x)]: the nearest integer, halves rounded up. *)
Definition Math_round (x : Q) : Q := inject_Z (Qfloor (x + (1 # 2))).

Definition ofLength (n : nat) : Q := inject_Z (Z.of_nat n).

Definition reduction_percent (content : str) : Q :=
  let originalLength := length content in
  let cleanedLength := length (cleanMarkdownContent content).1 in
  if (0 <? originalLength)%nat
  then Math_round (((1 - ofLength cleanedLength / ofLength originalLength)
                    * 100) * 10) / 10
  else 0.

(** ** Vocabulary of the specification *)

Local Close Scope N_scope.

(** A page that is a number is 1 or more. *)
Definition positive (p : number) : Prop :=
  match p with NaN => True | Num z => (1 ≤ z)%Z end.

(** How many entries of [ls] are equal to [x]. *)
Definition occurrences {A} `{EqDecision A} (x : A) (ls : list A) : nat :=
  length (filter (x =.) ls).

(** What the frequency table is said to hold for the trimmed line [t]:
    blank lines are not counted; any other trimmed line is counted once for
    each line that trims to it. *)
Definition counted (t : str) (lines : list str) : nat :=
  if decide (t = []) then 0 else occurrences t (trim <$> lines).

(** ASCII lower case, and equality of strings up to ASCII case. *)
Definition lower (c : N) : N :=
  if ((65 <=? c) && (c <=? 90))%N then (c + 32)%N else c.

Definition sameI (a b : str) : Prop := lower <$> a = lower <$> b.

(** A string made of decimal digits only. *)
Definition digits (s : str) : Prop := Forall (λ c, isDigit c = true) s.

(** The shapes of line that the cleaner is said to preserve: the trimmed
    line starts with "Page " and digits (in any case), starts with "["
    digits "]", contains "doi:" (in any case), or is a run of digits and
    nothing else. *)
Inductive preserved (t : str) : Prop :=
  | preserved_page p ds rest :
      sameI p (lit "Page ") → ds ≠ [] → digits ds → t = p ++ ds ++ rest →
      preserved t
  | preserved_footnote ds rest :
      ds ≠ [] → digits ds → t = lit "[" ++ ds ++ lit "]" ++ rest →
      preserved t
  | preserved_doi a k b :
      sameI k (lit "doi:") → t = a ++ k ++ b → preserved t
  | preserved_number :
      t ≠ [] → digits t → preserved t.

(** Case analysis on every comparison of code units in the goal. *)
Ltac case_leb :=
  repeat match goal with
         | |- context [N.leb ?x ?y] => destruct (N.leb_spec x y)
         end.

(** ** Page selections in the documented format

    The selections the tools document ("1,5,10-15"): each part is a page
    number, or two page numbers joined by "-". *)

(** The number a run of decimal digits denotes. *)
Definition value (ds : str) : Z :=
  foldl (λ acc d, 10 * acc + digitValue d)%Z 0%Z ds.

Inductive token :=
  | Page (ds : str)
  | Range (ds1 ds2 : str).

Definition render (t : token) : str :=
  match t with
  | Page ds => ds
  | Range ds1 ds2 => ds1 ++ lit "-" ++ ds2
  end.

(** The numerals are runs of digits, pages start at 1 and a range does
    not run backwards. *)
Definition wellFormed (t : token) : Prop :=
  match t with
  | Page ds => ds ≠ [] ∧ digits ds ∧ (1 ≤ value ds)%Z
  | Range ds1 ds2 =>
      ds1 ≠ [] ∧ digits ds1 ∧ ds2 ≠ [] ∧ digits ds2
      ∧ (1 ≤ value ds1 ≤ value ds2)%Z
  end.

(** The pages a token stands for. *)
Definition covers (t : token) (z : Z) : Prop :=
  match t with
  | Page ds => z = value ds
  | Range ds1 ds2 => (value ds1 ≤ z ≤ value ds2)%Z
  end.

(** ** Page selection of the local server

    What [processPdfOcr] of the local server does between the OCR response
    and its result: it keeps the requested pages and warns about requested
    pages the PDF does not have. *)

(** The warning of [processPdfOcr]: the requested pages that are out of
    range, which the message prints in ascending order, and the number of
    pages of the PDF. *)
Inductive warning :=
  | OutOfRange (invalidPages : list number) (totalPages : nat).

(** The pages a list of warnings reports. *)
Definition reported (warnings : list warning) : list number :=
  warnings ≫= (λ w, match w with OutOfRange invalidPages _ => invalidPages end).

(** [idx + 1] *)
Definition pageNumOf (idx : nat) : number := Num (Z.of_nat idx + 1).

Section processPdfOcr.
(** The page objects of the OCR response and their [markdown] field. *)
Context {page : Type} (markdown : page → str).

Record OcrResult := {
  markdownPages : list str;
  pageObjects : list page;
  pages_processed : list number;
  warnings : list warning
}.

(** The body of the loop over [response.pages]: the three arrays
    [filteredPages], [filteredPageObjects] and [processedList]. *)
Definition pushPage (pageNumbers : list number) (idx : nat) (pg : page)
    (arrays : list str * list page * list number)
    : list str * list page * list number :=
  let '(filteredPages, filteredPageObjects, processedList) := arrays in
  let pageNum := pageNumOf idx in
  if decide (pageNum ∈ pageNumbers)
  then (filteredPages ++ [markdown pg], filteredPageObjects ++ [pg],
        processedList ++ [pageNum])
  else arrays.

Fixpoint filterPages (pageNumbers : list number) (idx : nat) (pages : list page)
    (arrays : list str * list page * list number)
    : list str * list page * list number :=
  match pages with
  | [] => arrays
  | pg :: rest =>
      filterPages pageNumbers (S idx) rest (pushPage pageNumbers idx pg arrays)
  end.

(** [pageNumbers] is [None] when no selection was given. *)
Definition selectPages (pages : list page) (pageNumbers : option (list number))
    : OcrResult :=
  let totalPages := length pages in
  match pageNumbers with
  | Some pageNumbers =>
      let '(filteredPages, filteredPageObjects, processedList) :=
        filterPages pageNumbers 0 pages ([], [], []) in
      let allPages := addRange (Num 1) (Num (Z.of_nat totalPages)) [] in
      let invalidPages := filter (λ p, p ∉ allPages) pageNumbers in
      {| markdownPages := filteredPages;
         pageObjects := filteredPageObjects;
         pages_processed := processedList;
         warnings := if (0 <? length invalidPages)%nat
                     then [OutOfRange invalidPages totalPages] else [] |}
  | None =>
      {| markdownPages := markdown <$> pages;
         pageObjects := pages;
         pages_processed := pageNumOf <$> seq 0 totalPages;
         warnings := [] |}
  end.

Definition markdown_content (result : OcrResult) : str :=
  join (lit "\n\n") (markdownPages result).

(** The pages of the response, each with its page number, the first being
    [idx + 1]. *)
Definition numbered (idx : nat) (pages : list page) : list (page * number) :=
  zip pages (pageNumOf <$> seq idx (length pages)).

End processPdfOcr.

(** A page number within a PDF of [totalPages] pages. *)
Definition inRange (totalPages : nat) (p : number) : Prop :=
  ∃ z, p = Num z ∧ (1 ≤ z ≤ Z.of_nat totalPages)%Z.

#[global] Instance inRange_dec totalPages p : Decision (inRange totalPages p).
Proof.
  refine
    match p with
    | NaN => right _
    | Num z =>
        cast_if (decide (1 ≤ z ≤ Z.of_nat totalPages)%Z)
    end; unfold inRange.
  - by intros (z & ? & _).
  - by exists z.
  - intros (z' & [= <-] & ?). done.
Defined.

(** ** Steps of markdownToText *)

(** The number of line feeds a text starts with. *)
Definition lead (s : str) : nat := length (takeWhile (λ c, c =? 10)%N s).

(** The fourth replacement of [markdownToText]. *)
Definition collapse (s : str) : str := replace newlinesRe (λ _, lit "\n\n") s.

(** ** What parsePageSpec refuses

    The trimmed parts at which the loop of [parsePageSpec] throws, with the
    error thrown: a part that starts with "-", a part with more than one
    "-", the page 0, a range with a 0 at either end, and a range that runs
    backwards. *)
Inductive refused : str → Error → Prop :=
  | refused_leading t :
      startsWith (lit "-") t = true → refused t (PositiveToken t)
  | refused_dashes t :
      startsWith (lit "-") t = false → 2 ≤ occurrences 45%N t →
      refused t (RangeFormat t)
  | refused_page ds :
      ds ≠ [] → digits ds → value ds = 0%Z →
      refused ds (PositivePage (Num 0))
  | refused_zero ds1 ds2 :
      ds1 ≠ [] → digits ds1 → ds2 ≠ [] → digits ds2 →
      value ds1 = 0%Z ∨ value ds2 = 0%Z →
      refused (ds1 ++ lit "-" ++ ds2)
        (PositiveRange (Num (value ds1)) (Num (value ds2)))
  | refused_backwards ds1 ds2 :
      ds1 ≠ [] → digits ds1 → ds2 ≠ [] → digits ds2 →
      (1 ≤ value ds2 < value ds1)%Z →
      refused (ds1 ++ lit "-" ++ ds2)
        (RangeOrder (Num (value ds1)) (Num (value ds2))).

(** ** Repeated headers and footers

    A line of [content] that [cleanMarkdownContent] takes for a repeated
    header or footer: it is not blank, three lines or more trim to the same
    text, and that text has none of the preserved shapes. *)
Definition repetitive (content line : str) : Prop :=
  trim line ≠ []
  ∧ 3 ≤ occurrences (trim line) (trim <$> split 10 content)
  ∧ ¬ preserved (trim line).

(** ** extractTablesFromPages

    The page and table objects of the OCR response are untyped in the
    source. Here [tablesOf pg] is [pg.tables] ([None] when it is missing or
    null), [prop t key] is [t[key]] ([None] when it is undefined or null),
    [truthy] is the truth value of a property and [String_ t] is
    [String(t)]. The [id] of an entry, "tbl-" followed by a number, is given
    by that number. *)
Section extractTablesFromPages.
Context {page table content : Type}.
Context (tablesOf : page → option (list table)).
Context (prop : table → str → option content).
Context (truthy : content → bool) (String_ : table → content).

Record TableEntry := {
  table_id : nat;
  table_page : nat;
  table_content : content;
  table_format : str
}.

Definition tableContent (tableFormat : str) (t : table) : content :=
  match prop t tableFormat with
  | Some tableContent => tableContent
  | None =>
      match prop t (lit "markdown") with
      | Some markdown => if truthy markdown then markdown else String_ t
      | None => String_ t
      end
  end.

(** The body of the inner loop, on the array [tables] and the counter
    [tableId]. *)
Definition pushTable (tableFormat : str) (pageIdx : nat)
    (state : list TableEntry * nat) (t : table) : list TableEntry * nat :=
  let '(tables, tableId) := state in
  (tables ++ [{| table_id := tableId;
                 table_page := pageIdx + 1;
                 table_content := tableContent tableFormat t;
                 table_format := tableFormat |}],
   S tableId).

(** The body of the outer loop. *)
Definition tablesOfPage (tableFormat : str) (pageIdx : nat) (pg : page)
    (state : list TableEntry * nat) : list TableEntry * nat :=
  match tablesOf pg with
  | None => state
  | Some [] => state
  | Some tables => foldl (pushTable tableFormat pageIdx) state tables
  end.

Fixpoint tablesFrom (tableFormat : str) (pageIdx : nat) (pages : list page)
    (state : list TableEntry * nat) : list TableEntry * nat :=
  match pages with
  | [] => state
  | pg :: rest =>
      tablesFrom tableFormat (S pageIdx) rest
        (tablesOfPage tableFormat pageIdx pg state)
  end.

Definition extractTablesFromPages (pages : list page) (tableFormat : str)
    : list TableEntry :=
  (tablesFrom tableFormat 0 pages ([], 0)).1.

(** The tables of the pages in reading order, each with the position of
    its page, the first page being at [pageIdx + 1]. *)
Fixpoint located (pageIdx : nat) (pages : list page) : list (nat * table) :=
  match pages with
  | [] => []
  | pg :: rest =>
      ((λ t, (pageIdx + 1, t)) <$> default [] (tablesOf pg))
      ++ located (S pageIdx) rest
  end.

End extractTablesFromPages.

(** ** extractHyperlinksFromContent *)

(** [s.endsWith(p)] *)
Definition endsWith (p s : str) : bool := startsWith (rev p) (rev s).

(** [/\[([^\]]+)\]\(([^\)]+)\)/g]; the groups are the nodes 1 and 4. *)
Definition hyperlinkRe : regex :=
  {| anchored := false;
     nodes := [One (chr "["); Many (noneOf "]") 1 true; One (chr "]");
               One (chr "("); Many (noneOf ")") 1 true; One (chr ")")] |}.

(** [pattern.exec(content)] for a pattern with the [g] flag, on the text
    that starts at [lastIndex]: the first match at or behind that index,
    as the text taken by each node, and the text that starts at the new
    [lastIndex]; [None] is [null]. *)
Fixpoint exec (ns : list node) (s : str) : option (list str * str) :=
  match matchNodes ns s with
  | Some m => Some m
  | None => match s with [] => None | _ :: r => exec ns r end
  end.

Record Hyperlink := { text : str; url : str }.

(** The loop of the edge worker's [processPdfOcr], for at most [fuel]
    calls of [exec]; [None] when the fuel is used up before [exec] returns
    [null]. *)
Fixpoint linkPatternLoop (fuel : nat) (s : str) (hyperlinks : list Hyperlink)
    : option (list Hyperlink) :=
  match fuel with
  | O => None
  | S fuel' =>
      match exec (nodes hyperlinkRe) s with
      | None => Some hyperlinks
      | Some (segs, rest) =>
          linkPatternLoop fuel' rest
            (hyperlinks ++ [{| text := default [] (segs !! 1);
                               url := default [] (segs !! 4) |}])
      end
  end.

Definition workerHyperlinks (content : str) : option (list Hyperlink) :=
  linkPatternLoop (S (length content)) content [].

Section extractHyperlinksFromContent.
(** [String.prototype.toLowerCase], which is not modelled. *)
Context (toLowerCase : str → str).

(** The test for image links. *)
Definition isImageLink (url : str) : bool :=
  startsWith (lit "data:image") url
  || existsb (λ ext, endsWith ext (toLowerCase url))
       [lit ".png"; lit ".jpg"; lit ".jpeg"; lit ".gif"; lit ".webp"].

(** The loop of [extractHyperlinksFromContent], with fuel as above. *)
Fixpoint hyperlinkLoop (fuel : nat) (s : str) (hyperlinks : list Hyperlink)
    : option (list Hyperlink) :=
  match fuel with
  | O => None
  | S fuel' =>
      match exec (nodes hyperlinkRe) s with
      | None => Some hyperlinks
      | Some (segs, rest) =>
          let text := default [] (segs !! 1) in
          let url := default [] (segs !! 4) in
          if isImageLink url then hyperlinkLoop fuel' rest hyperlinks
          else hyperlinkLoop fuel' rest (hyperlinks ++ [{| text := text; url := url |}])
      end
  end.

Definition extractHyperlinksFromContent (markdownContent : str)
    : option (list Hyperlink) :=
  hyperlinkLoop (S (length markdownContent)) markdownContent [].

End extractHyperlinksFromContent.

(** A link as it is written: "[text](url)". *)
Definition written (text url : str) : str :=
  lit "[" ++ text ++ lit "](" ++ url ++ lit ")".

(** ** Data URLs

    What the two servers hand to the OCR service for a base64 source. *)

(** The edge worker's [processPdfOcr]:
    [pdfSource.includes(",") ? pdfSource.split(",")[1] : pdfSource]; were
    there no second part, the template would print "undefined". *)
Definition base64Data (pdfSource : str) : str :=
  if includes (lit ",") pdfSource
  then default (lit "undefined") (split 44 pdfSource !! 1)
  else pdfSource.

Definition documentUrl (pdfSource : str) : str :=
  lit "data:application/pdf;base64," ++ base64Data pdfSource.

(** [processImageOcr] of both servers, for the source type "base64". *)
Definition imageUrl (imageSource : str) : str :=
  if negb (startsWith (lit "data:") imageSource)
  then lit "data:image/png;base64," ++ imageSource
  else imageSource.

(** ** Output files

    Where the local server's tools write the text when [save_to_file] is
    set. *)

(** [s.replace(re, repl)] for a pattern without the [g] flag and a
    replacement without "$": the first match is replaced. *)
Fixpoint replaceFirst (ns : list node) (repl : str) (s : str) : str :=
  match matchNodes ns s with
  | Some (_, rest) => repl ++ rest
  | None => match s with [] => [] | c :: r => c :: replaceFirst ns repl r end
  end.

(** [/\.pdf$/i] *)
Definition pdfExtRe : regex :=
  {| anchored := false;
     nodes := [One (chr "."); One (chrI "p"); One (chrI "d"); One (chrI "f");
               AtEnd] |}.

(** [/\.[^.]+$/] *)
Definition extensionRe : regex :=
  {| anchored := false;
     nodes := [One (chr "."); Many (noneOf ".") 1 true; AtEnd] |}.

(** [params.output_format === "text" ? ".txt" : ".md"] *)
Definition extOf (output_format : str) : str :=
  if decide (output_format = lit "text") then lit ".txt" else lit ".md".

(** The PDF tool: [pdfPath.replace(/\.pdf$/i, ext)]. *)
Definition pdfOutputPath (pdfPath output_format : str) : str :=
  replaceFirst (nodes pdfExtRe) (extOf output_format) pdfPath.

(** The image tool, for the source type "file":
    [basePath.replace(/\.[^.]+$/, ext)]. *)
Definition imageOutputPath (basePath output_format : str) : str :=
  replaceFirst (nodes extensionRe) (extOf output_format) basePath.

(** ** Structured extraction

    The pages the structured-extraction tool reports as processed, and its
    warning, from the selection (if one was given) and the number of pages
    of the response. *)
Inductive annotationWarning :=
  | FirstEight (totalPages : nat).
      (* Document has ${totalPages} pages but only first 8 were processed for annotation *)

Definition annotatedPages (pageNumbers : option (list number)) (totalPages : nat)
    : list number * list annotationWarning :=
  let pagesProcessed := pageNumOf <$> seq 0 totalPages in
  let '(pagesProcessed, warnings) :=
    if bool_decide (is_Some pageNumbers) && (8 <? totalPages)
    then (take 8 pagesProcessed, [FirstEight totalPages])
    else (pagesProcessed, []) in
  (if 8 <? totalPages then take 8 pagesProcessed else pagesProcessed, warnings).

(** * Properties *)

(** ** Splitting and joining *)

Section split_join.
Context (sep : N).

Lemma split_ne s : split sep s ≠ [].
Proof.
  destruct s as [|c r]; simpl; [done|].
  destruct (c =? sep)%N; [done|]. by destruct (split sep r).
Qed.

Lemma join_cons x l : l ≠ [] → join [sep] (x :: l) = x ++ sep :: join [sep] l.
Proof. by destruct l. Qed.

Lemma join_split s : join [sep] (split sep s) = s.
Proof.
  induction s as [|c r IH]; simpl; [done|].
  destruct (N.eqb_spec c sep) as [->|Hne].
  - rewrite join_cons by apply split_ne. by rewrite IH.
  - pose proof (split_ne r) as Hr.
    destruct (split sep r) as [|h t]; [done|].
    destruct t as [|h' t]; simpl in *; by rewrite <- IH.
Qed.

Lemma split_no_sep s : Forall (λ l, sep ∉ l) (split sep s).
Proof.
  induction s as [|c r IH]; simpl.
  - repeat constructor. by intros ?%elem_of_nil.
  - destruct (N.eqb_spec c sep) as [->|Hne].
    + constructor; [by intros ?%elem_of_nil | done].
    + destruct (split sep r) as [|h t].
      * repeat constructor. by intros [?| ?%elem_of_nil]%elem_of_cons.
      * apply Forall_cons in IH as [Hh Ht].
        constructor; [by intros [?|?]%elem_of_cons | done].
Qed.

Lemma split_one x : sep ∉ x → split sep x = [x].
Proof.
  induction x as [|c r IH]; simpl; intros Hx; [done|].
  destruct (N.eqb_spec c sep) as [->|Hne]; [by destruct Hx; left|].
  rewrite IH; [done | by intros ?; apply Hx; right].
Qed.

Lemma split_app x r : sep ∉ x → split sep (x ++ sep :: r) = x :: split sep r.
Proof.
  induction x as [|c x IH]; simpl; intros Hx.
  - by rewrite N.eqb_refl.
  - destruct (N.eqb_spec c sep) as [->|Hne]; [by destruct Hx; left|].
    rewrite IH; [done | by intros ?; apply Hx; right].
Qed.

Lemma split_join ls :
  ls ≠ [] → Forall (λ l, sep ∉ l) ls → split sep (join [sep] ls) = ls.
Proof.
  induction ls as [|x ls IH]; intros Hne Hall; [done|].
  apply Forall_cons in Hall as [Hx Hls].
  destruct ls as [|y ls].
  - simpl. by apply split_one.
  - rewrite (join_cons x (y :: ls)) by done. rewrite split_app by done.
    f_equal. by apply IH.
Qed.

Lemma join_length_cons x l :
  length (join [sep] l) ≤ length (join [sep] (x :: l)).
Proof.
  destruct l as [|y l]; [simpl; lia|].
  rewrite (join_cons x (y :: l)) by done. rewrite length_app. simpl. lia.
Qed.

Lemma join_length_sublist l1 l2 :
  l1 `sublist_of` l2 → length (join [sep] l1) ≤ length (join [sep] l2).
Proof.
  induction 1 as [|x l1 l2 Hsub IH|x l1 l2 Hsub IH].
  - done.
  - destruct l1 as [|y l1].
    + destruct l2 as [|z l2]; [done|].
      rewrite (join_cons x (z :: l2)) by done. rewrite length_app. simpl. lia.
    + assert (l2 ≠ []) by (intros ->; by apply sublist_nil_r in Hsub).
      rewrite (join_cons x (y :: l1)), (join_cons x l2) by done.
      rewrite !length_app, !length_cons. lia.
  - etrans; [apply IH | apply join_length_cons].
Qed.
End split_join.

(** ** The frequency table *)

Lemma occurrences_cons {A} `{EqDecision A} (x y : A) ls :
  occurrences x (y :: ls) = (if decide (x = y) then 1 else 0) + occurrences x ls.
Proof.
  unfold occurrences. rewrite filter_cons.
  by destruct (decide (x = y)).
Qed.

Lemma occurrences_sublist {A} `{EqDecision A} (x : A) l1 l2 :
  l1 `sublist_of` l2 → occurrences x l1 ≤ occurrences x l2.
Proof.
  induction 1 as [|y l1 l2 _ IH|y l1 l2 _ IH]; [done|..];
    rewrite !occurrences_cons; lia.
Qed.

Lemma countLine_lookup m line t :
  default 0 (countLine m line !! t)
  = default 0 (m !! t) + counted t [line].
Proof.
  unfold countLine, counted. simpl. rewrite occurrences_cons.
  unfold occurrences. simpl.
  destruct (Nat.ltb_spec 0 (length (trim line))) as [Hlen|Hlen].
  - destruct (decide (trim line = t)) as [<-|Hne].
    + rewrite lookup_insert_eq.
      destruct (decide (trim line = [])) as [Hnil|_]; [rewrite Hnil in Hlen; simpl in Hlen; lia|].
      rewrite decide_True by done. simpl. lia.
    + rewrite lookup_insert_ne by done.
      destruct (decide (t = [])); [lia|]. rewrite decide_False by done. lia.
  - destruct (decide (t = [])); [lia|].
    destruct (trim line) eqn:E; [|simpl in Hlen; lia].
    rewrite decide_False by done. lia.
Qed.

Lemma countLines_lookup_from m lines t :
  default 0 (foldl countLine m lines !! t)
  = default 0 (m !! t) + counted t lines.
Proof.
  revert m. induction lines as [|line lines IH]; intros m; simpl.
  - unfold counted, occurrences. simpl. destruct (decide (t = [])); lia.
  - rewrite IH, countLine_lookup. unfold counted.
    rewrite !fmap_cons, !occurrences_cons. change (occurrences t (trim <$> [])) with 0.
    destruct (decide (t = [])); lia.
Qed.

Lemma countLines_lookup lines t :
  default 0 (countLines lines !! t) = counted t lines.
Proof. unfold countLines. by rewrite countLines_lookup_from, lookup_empty. Qed.

(** The table never holds a zero, so [|| 0] only ever stands for a missing
    entry. *)
Lemma countLine_positive m line :
  map_Forall (λ _ n, 0 < n) m → map_Forall (λ _ n, 0 < n) (countLine m line).
Proof.
  intros Hm. unfold countLine. destruct (0 <? _); [|done].
  apply map_Forall_insert_2; [lia | done].
Qed.

Lemma countLines_positive lines t n :
  countLines lines !! t = Some n → 0 < n.
Proof.
  assert (∀ m, map_Forall (λ _ n, 0 < n) m →
               map_Forall (λ _ n, 0 < n) (foldl countLine m lines)) as H.
  { induction lines as [|l ls IH]; intros m Hm; simpl; [done|].
    apply IH. by apply countLine_positive. }
  apply (H ∅). apply map_Forall_empty.
Qed.

Lemma isPreserved_tests line :
  negb (matches pageRe line) && negb (matches footnoteRe line)
  && negb (matches doiRe line) && negb (matches numberRe line)
  = negb (isPreserved line).
Proof. unfold isPreserved. by rewrite !negb_orb. Qed.

Lemma elem_of_findRepetitive m t :
  t ∈ findRepetitive m ↔ ∃ n, m !! t = Some n ∧ 3 ≤ n ∧ isPreserved t = false.
Proof.
  unfold findRepetitive.
  apply (map_fold_weak_ind (λ r m,
    t ∈ r ↔ ∃ n, m !! t = Some n ∧ 3 ≤ n ∧ isPreserved t = false)); clear m.
  - split; [by intros ?%not_elem_of_empty | by intros (n & ?%lookup_empty_Some & _)].
  - intros line count m r Hfresh IH. unfold addRepetitive.
    rewrite isPreserved_tests.
    destruct (decide (line = t)) as [->|Hne].
    + rewrite lookup_insert_eq.
      destruct (Nat.leb_spec 3 count) as [Hc|Hc];
        [destruct (isPreserved t) eqn:Hp; simpl|].
      * rewrite IH, Hfresh. split; [by intros (? & ? & _) | by intros (? & _ & _ & ?)].
      * split; [by exists count | intros _; apply elem_of_union_l, elem_of_singleton_2; done].
      * rewrite IH, Hfresh.
        split; [by intros (? & ? & _) | intros (? & [= <-] & ? & _); lia].
    + rewrite lookup_insert_ne by done.
      destruct (3 <=? count); [destruct (isPreserved line); simpl|]; try done.
      rewrite elem_of_union, elem_of_singleton. rewrite <- IH.
      split; [intros [?|?]; [by subst | done] | by right].
Qed.

Lemma elem_of_repetitive lines t :
  t ∈ findRepetitive (countLines lines)
  ↔ 3 ≤ counted t lines ∧ isPreserved t = false.
Proof.
  rewrite elem_of_findRepetitive, <- countLines_lookup. split.
  - intros (n & -> & ? & ?). done.
  - intros [Hn ?]. destruct (countLines lines !! t) as [n|]; [by exists n | simpl in Hn; lia].
Qed.

Lemma keepLine_true R line :
  keepLine R line = true ↔ trim line = [] ∨ trim line ∉ R.
Proof.
  unfold keepLine. rewrite orb_true_iff, negb_true_iff, bool_decide_eq_false.
  rewrite Nat.eqb_eq. by rewrite length_zero_iff_nil.
Qed.

(** A line is dropped exactly when its trimmed form is not blank, is
    carried by three lines or more, and passes none of the four tests. *)
Lemma elem_of_cleanedLines content line :
  line ∈ cleanedLines content
  ↔ line ∈ split 10 content
    ∧ ¬ (3 ≤ counted (trim line) (split 10 content)
         ∧ isPreserved (trim line) = false).
Proof.
  unfold cleanedLines.
  rewrite list_elem_of_filter, Is_true_true, keepLine_true, elem_of_repetitive.
  split.
  - intros [[Hnil|Hnot] Hin]; (split; [done|]); [|done].
    intros [Hc _]. unfold counted in Hc. rewrite decide_True in Hc by done. lia.
  - intros [Hin Hnot]. split; [by right | done].
Qed.

Lemma cleanedLines_sublist content :
  cleanedLines content `sublist_of` split 10 content.
Proof. apply sublist_filter. Qed.

Lemma cleanMarkdownContent_cleanedLines content :
  cleanMarkdownContent content
  = (join (lit "\n") (cleanedLines content), lit "lightweight inline deduplication").
Proof. done. Qed.

Lemma filter_id {A} (P : A → Prop) `{!∀ x, Decision (P x)} (l : list A) :
  Forall P l → filter P l = l.
Proof.
  induction 1 as [|x l Hx _ IH]; [done|].
  by rewrite filter_cons_True, IH.
Qed.

Lemma counted_sublist t l1 l2 :
  l1 `sublist_of` l2 → counted t l1 ≤ counted t l2.
Proof.
  intros Hsub. unfold counted. destruct (decide (t = [])); [done|].
  apply occurrences_sublist. by apply fmap_sublist.
Qed.

Lemma cleanedLines_no_newline content :
  Forall (λ l, 10%N ∉ l) (cleanedLines content).
Proof.
  apply Forall_forall. intros l Hl.
  eapply elem_of_sublist in Hl; [|apply cleanedLines_sublist].
  revert l Hl. apply Forall_forall, split_no_sep.
Qed.

(** The lines of the returned text are the lines that were kept, unless
    none was: the empty text is one empty line. *)
Lemma split_cleaned content :
  split 10 (cleanMarkdownContent content).1
  = match cleanedLines content with [] => [[]] | ls => ls end.
Proof.
  rewrite cleanMarkdownContent_cleanedLines. simpl fst.
  destruct (cleanedLines content) as [|l ls] eqn:E; [done|].
  rewrite <- E. apply split_join; [by rewrite E|]. apply cleanedLines_no_newline.
Qed.

(** A second pass finds nothing to drop among the lines the first pass
    kept: their counts have not grown. *)
Lemma cleanedLines_stable content :
  Forall (λ line, keepLine (findRepetitive (countLines (cleanedLines content))) line)
         (cleanedLines content).
Proof.
  apply Forall_forall. intros line Hin.
  apply Is_true_true, keepLine_true.
  destruct (decide (trim line = [])) as [|Hne]; [by left | right].
  rewrite elem_of_repetitive. intros [Hc Hp].
  apply elem_of_cleanedLines in Hin as [_ Hkeep]. apply Hkeep. split; [|done].
  etrans; [exact Hc | apply counted_sublist, cleanedLines_sublist].
Qed.

Lemma cleanedLines_cleaned content :
  cleanedLines content ≠ [] →
  cleanedLines (cleanMarkdownContent content).1 = cleanedLines content.
Proof.
  intros Hne. unfold cleanedLines at 1. rewrite split_cleaned.
  destruct (cleanedLines content) as [|l ls] eqn:E; [done|]. rewrite <- E.
  apply filter_id, cleanedLines_stable.
Qed.

Lemma length_cleaned content :
  length (cleanMarkdownContent content).1 ≤ length content.
Proof.
  rewrite cleanMarkdownContent_cleanedLines. simpl fst.
  rewrite <- (join_split 10 content) at 2.
  apply (join_length_sublist 10), cleanedLines_sublist.
Qed.

(** *** Idempotence *)

(** C3. Cleaning is idempotent: for every string [x], cleaning the cleaned
    content of [x] returns that same cleaned content. *)
Theorem cleanMarkdownContent_idempotent (x : str) :
  (cleanMarkdownContent (cleanMarkdownContent x).1).1 = (cleanMarkdownContent x).1.
Proof.
  destruct (decide (cleanedLines x = [])) as [Hnil|Hne].
  - rewrite (cleanMarkdownContent_cleanedLines x), Hnil. done.
  - rewrite !cleanMarkdownContent_cleanedLines. simpl fst. f_equal.
    rewrite <- (cleanedLines_cleaned x) at 2 by done.
    by rewrite cleanMarkdownContent_cleanedLines.
Qed.

(** ** The regular expressions *)

Section many.
Context {R : Type} (p : N → bool) (k : str → option R).

Lemma push_Some c (m : option (str * R)) seg x :
  push c m = Some (seg, x) ↔ ∃ seg', seg = c :: seg' ∧ m = Some (seg', x).
Proof.
  destruct m as [[seg' x']|]; simpl.
  - split; [intros [= <- <-]; eauto | by intros (? & -> & [= -> ->])].
  - split; [done | by intros (? & _ & ?)].
Qed.

Lemma stop_Some s seg x :
  stop k s = Some (seg, x) ↔ seg = [] ∧ k s = Some x.
Proof.
  unfold stop. destruct (k s) as [y|].
  - split; [by intros [= <- <-] | by intros [-> [= ->]]].
  - split; [done | by intros [_ ?]].
Qed.

(** What a quantifier takes is a run of at least [lo] code units of its
    class, and the continuation accepts what follows the run. *)
Lemma many_sound lo greedy s seg x :
  many p lo greedy k s = Some (seg, x) →
  ∃ rest, s = seg ++ rest ∧ k rest = Some x
          ∧ Forall (λ c, p c = true) seg ∧ lo ≤ length seg.
Proof.
  assert (Hstop : ∀ s seg x, stop k s = Some (seg, x) →
    ∃ rest, s = seg ++ rest ∧ k rest = Some x
            ∧ Forall (λ c, p c = true) seg ∧ 0 ≤ length seg).
  { intros s' seg' x' [-> ?]%stop_Some. exists s'. by repeat split. }
  revert lo seg. induction s as [|c r IH]; intros lo seg H.
  - destruct lo; simpl in H; [by apply Hstop|done].
  - assert (Hmore : ∀ lo',
      (if p c then push c (many p lo' greedy k r) else None) = Some (seg, x) →
      ∃ rest, c :: r = seg ++ rest ∧ k rest = Some x
              ∧ Forall (λ c, p c = true) seg ∧ S lo' ≤ length seg).
    { intros lo' H'. destruct (p c) eqn:Hp; [|done].
      apply push_Some in H' as (seg' & -> & H').
      apply IH in H' as (rest & -> & ? & ? & ?).
      exists rest. repeat split; [done| by constructor | simpl; lia]. }
    assert (Hmore0 :
      (if p c then push c (many p 0 greedy k r) else None) = Some (seg, x) →
      ∃ rest, c :: r = seg ++ rest ∧ k rest = Some x
              ∧ Forall (λ c, p c = true) seg ∧ 0 ≤ length seg).
    { intros (rest & ? & ? & ? & ?)%Hmore. exists rest. repeat split; [done..|lia]. }
    destruct lo as [|lo]; simpl in H; [|by apply Hmore].
    destruct greedy.
    + destruct (if p c then push c (many p 0 true k r) else None) eqn:E.
      * by apply Hmore0.
      * by apply Hstop.
    + destruct (stop k (c :: r)) eqn:E.
      * rewrite <- E in H. by apply Hstop.
      * by apply Hmore0.
Qed.

(** A greedy quantifier finds a match whenever some run of at least [lo]
    code units of its class is followed by text the continuation
    accepts. *)
Lemma many_greedy_complete lo ds rest :
  Forall (λ c, p c = true) ds → lo ≤ length ds → is_Some (k rest) →
  is_Some (many p lo true k (ds ++ rest)).
Proof.
  intros Hds Hlo [x Hk].
  assert (Hstop : ∀ s, s = rest → is_Some (stop k s)).
  { intros s ->. unfold stop. by rewrite Hk. }
  revert lo Hlo. induction Hds as [|d ds Hd _ IH]; intros lo Hlo.
  - destruct lo; [|simpl in Hlo; lia]. simpl.
    destruct rest as [|c r]; simpl; [by apply Hstop|].
    destruct (if p c then _ else _); [done | by apply Hstop].
  - assert (Hmore : ∀ lo', lo' ≤ length ds →
      is_Some (if p d then push d (many p lo' true k (ds ++ rest)) else None)).
    { intros lo' Hlo'. rewrite Hd. destruct (IH lo' Hlo') as [[seg y] ->]. done. }
    destruct lo as [|lo]; simpl.
    + destruct (Hmore 0) as [m ->]; [lia | done].
    + apply Hmore. simpl in Hlo. lia.
Qed.
End many.

Lemma matchesAt_nil s : matchesAt [] s = true.
Proof. done. Qed.

Lemma matchesAt_One p ns s :
  matchesAt (One p :: ns) s = true
  ↔ ∃ c r, s = c :: r ∧ p c = true ∧ matchesAt ns r = true.
Proof.
  unfold matchesAt. simpl.
  destruct s as [|c r]; [by split; [|intros (? & ? & ? & _)]|].
  destruct (p c) eqn:Hp;
    [|split; [done | intros (? & ? & [= <- <-] & ? & _); congruence]].
  destruct (matchNodes ns r) as [[segs rest]|] eqn:E.
  - split; [intros _; exists c, r; by rewrite E | done].
  - split; [done | intros (? & ? & [= <- <-] & _ & H); by rewrite E in H].
Qed.

Lemma matchesAt_One_intro p ns c r :
  p c = true → matchesAt ns r = true → matchesAt (One p :: ns) (c :: r) = true.
Proof. intros. apply matchesAt_One. by exists c, r. Qed.

Lemma matchesAt_AtEnd s : matchesAt [AtEnd] s = true ↔ s = [].
Proof. unfold matchesAt. simpl. by destruct s. Qed.

Lemma matchesAt_Many p lo ns s :
  matchesAt (Many p lo true :: ns) s = true
  ↔ ∃ seg rest, s = seg ++ rest ∧ Forall (λ c, p c = true) seg
                ∧ lo ≤ length seg ∧ matchesAt ns rest = true.
Proof.
  unfold matchesAt. simpl. split.
  - destruct (many _ _ _ _ _) as [[seg [segs rest']]|] eqn:E; [intros _|done].
    apply many_sound in E as (rest & -> & Hk & ? & ?).
    exists seg, rest. by rewrite Hk.
  - intros (seg & rest & -> & Hseg & Hlo & Hk).
    destruct (many_greedy_complete p (matchNodes ns) lo seg rest) as [[? [? ?]] ->];
      [done | done | by destruct (matchNodes ns rest) | done].
Qed.

Lemma search_true ns s :
  search ns s = true ↔ ∃ a b, s = a ++ b ∧ matchesAt ns b = true.
Proof.
  induction s as [|c r IH]; simpl.
  - rewrite orb_false_r. split; [by exists [], [] |].
    by intros (a & b & [-> ->]%eq_sym%app_eq_nil & ?).
  - rewrite orb_true_iff, IH. split.
    + intros [?|(a & b & -> & ?)]; [by exists [], (c :: r) | by exists (c :: a), b].
    + intros ([|c' a] & b & E & ?); simplify_eq/=; [by left | right; eauto].
Qed.

(** ** The preserved shapes of line *)

Lemma chr_true a c : chr a c = true ↔ c = code a.
Proof. unfold chr. apply N.eqb_eq. Qed.

(** The [i] flag compares up to ASCII case. *)
Lemma chrI_true a c : chrI a c = true ↔ lower c = lower (code a).
Proof.
  unfold chrI, canonicalize, lower. rewrite N.eqb_eq.
  generalize (code a). intros d. case_leb; simpl; lia.
Qed.

(** Up to ASCII case, only a character that is no letter is equal to
    itself alone. *)
Lemma lower_eq_chr a c :
  lower (code a) = code a → canonicalize (code a) = code a →
  lower c = lower (code a) → chr a c = true.
Proof.
  intros Hl Hc H. apply chr_true. rewrite Hl in H.
  revert Hc H. clear Hl. unfold lower, canonicalize.
  generalize (code a). intros d. case_leb; simpl; lia.
Qed.

Lemma matches_pageRe t :
  matches pageRe t = true
  ↔ ∃ p ds rest, sameI p (lit "Page ") ∧ ds ≠ [] ∧ digits ds ∧ t = p ++ ds ++ rest.
Proof.
  unfold matches, pageRe; simpl anchored; simpl nodes. split.
  - intros (c1 & t1 & -> & H1%chrI_true &
            (c2 & t2 & -> & H2%chrI_true &
            (c3 & t3 & -> & H3%chrI_true &
            (c4 & t4 & -> & H4%chrI_true &
            (c5 & t5 & -> & H5%chr_true &
            (ds & rest & -> & Hds & Hlen & _)%matchesAt_Many
            )%matchesAt_One)%matchesAt_One)%matchesAt_One)%matchesAt_One)%matchesAt_One.
    exists [c1; c2; c3; c4; c5], ds, rest.
    repeat split; [|destruct ds; [simpl in Hlen; lia | done]|done].
    unfold sameI. simpl. by rewrite H1, H2, H3, H4, H5.
  - intros (p & ds & rest & Hp & Hne & Hds & ->).
    destruct p as [|c1 [|c2 [|c3 [|c4 [|c5 [|c6 p]]]]]]; try done.
    injection Hp as H1 H2 H3 H4 H5.
    do 4 (apply matchesAt_One_intro; [by apply chrI_true|]).
    apply matchesAt_One_intro; [by apply lower_eq_chr|].
    apply matchesAt_Many. exists ds, rest. repeat split; try done.
    destruct ds; [done | simpl; lia].
Qed.

Lemma matches_footnoteRe t :
  matches footnoteRe t = true
  ↔ ∃ ds rest, ds ≠ [] ∧ digits ds ∧ t = lit "[" ++ ds ++ lit "]" ++ rest.
Proof.
  unfold matches, footnoteRe; simpl anchored; simpl nodes. split.
  - intros (c1 & t1 & -> & ->%chr_true &
            (ds & rest & -> & Hds & Hlen &
            (c2 & t2 & -> & ->%chr_true & _)%matchesAt_One
            )%matchesAt_Many)%matchesAt_One.
    exists ds, t2. repeat split; [destruct ds; [simpl in Hlen; lia | done] | done].
  - intros (ds & rest & Hne & Hds & ->).
    apply matchesAt_One_intro; [done|].
    apply matchesAt_Many. exists ds, (lit "]" ++ rest).
    split; [done|]. split; [done|]. split; [destruct ds; [done | simpl; lia]|].
    by apply matchesAt_One_intro.
Qed.

Lemma matches_numberRe t :
  matches numberRe t = true ↔ t ≠ [] ∧ digits t.
Proof.
  unfold matches, numberRe; simpl anchored; simpl nodes. split.
  - intros (ds & rest & -> & Hds & Hlen & ->%matchesAt_AtEnd)%matchesAt_Many.
    rewrite app_nil_r. split; [destruct ds; [simpl in Hlen; lia | done] | done].
  - intros [Hne Hds]. apply matchesAt_Many. exists t, [].
    rewrite app_nil_r. split; [done|]. split; [done|].
    split; [destruct t; [done | simpl; lia]|]. by apply matchesAt_AtEnd.
Qed.

Lemma matches_doiRe t :
  matches doiRe t = true ↔ ∃ a k b, sameI k (lit "doi:") ∧ t = a ++ k ++ b.
Proof.
  unfold matches, doiRe; simpl anchored; simpl nodes.
  rewrite search_true. split.
  - intros (a & s & -> &
            (c1 & t1 & -> & H1%chrI_true &
            (c2 & t2 & -> & H2%chrI_true &
            (c3 & t3 & -> & H3%chrI_true &
            (c4 & t4 & -> & H4%chr_true & _
            )%matchesAt_One)%matchesAt_One)%matchesAt_One)%matchesAt_One).
    exists a, [c1; c2; c3; c4], t4. split; [|done].
    unfold sameI. simpl. by rewrite H1, H2, H3, H4.
  - intros (a & k & b & Hk & ->). exists a, (k ++ b). split; [done|].
    destruct k as [|c1 [|c2 [|c3 [|c4 [|c5 k]]]]]; try done.
    injection Hk as H1 H2 H3 H4.
    do 3 (apply matchesAt_One_intro; [by apply chrI_true|]).
    by apply matchesAt_One_intro; [apply lower_eq_chr|].
Qed.

(** The four tests of the source accept exactly the shapes the
    specification lists. *)
Lemma isPreserved_true t : isPreserved t = true ↔ preserved t.
Proof.
  unfold isPreserved.
  rewrite !orb_true_iff, matches_pageRe, matches_footnoteRe, matches_doiRe,
    matches_numberRe.
  split.
  - intros [[[(p & ds & rest & ? & ? & ? & ?)|(ds & rest & ? & ? & ?)]
            |(a & k & b & ? & ?)]|[? ?]];
      eauto using preserved.
  - intros [p ds rest|ds rest|a k b|]; eauto 10.
Qed.

Lemma isPreserved_false t : isPreserved t = false ↔ ¬ preserved t.
Proof. rewrite <- isPreserved_true. by destruct (isPreserved t). Qed.

(** ** What the cleaner keeps and what it drops *)

Lemma occurrences_filter {A} `{EqDecision A} (P : A → Prop)
    `{!∀ x, Decision (P x)} (x : A) (l : list A) :
  P x → occurrences x (filter P l) = occurrences x l.
Proof.
  intros Hx. induction l as [|y l IH]; [done|].
  rewrite filter_cons, occurrences_cons.
  destruct (decide (P y)) as [Hy|Hy].
  - by rewrite occurrences_cons, IH.
  - rewrite IH. destruct (decide (x = y)) as [->|]; [done | lia].
Qed.

Lemma counted_le t lines : counted t lines ≤ occurrences t (trim <$> lines).
Proof. unfold counted. destruct (decide (t = [])); lia. Qed.

Lemma counted_nonblank t lines :
  t ≠ [] → counted t lines = occurrences t (trim <$> lines).
Proof. intros Hne. unfold counted. by rewrite decide_False. Qed.

(** Every copy of a kept line is among the lines of the returned text. *)
Lemma kept_line content line :
  line ∈ cleanedLines content →
  occurrences line (split 10 (cleanMarkdownContent content).1)
  = occurrences line (split 10 content).
Proof.
  intros Hin. rewrite split_cleaned.
  destruct (cleanedLines content) as [|l ls] eqn:E; [by apply elem_of_nil in Hin|].
  rewrite <- E in *. unfold cleanedLines in *.
  apply occurrences_filter. by apply list_elem_of_filter in Hin as [? _].
Qed.

(** No copy of a dropped line is among the lines of the returned text. *)
Lemma dropped_line content line :
  trim line ≠ [] → line ∉ cleanedLines content →
  line ∉ split 10 (cleanMarkdownContent content).1.
Proof.
  intros Hne Hout. rewrite split_cleaned.
  destruct (cleanedLines content) as [|l ls] eqn:E; [|done].
  intros ->%list_elem_of_singleton. by apply Hne.
Qed.

(** *** Threshold *)

(** C4, as stated, fails on blank lines: in the text of three blank lines
    the trimmed form of each line occurs 3 times and has none of the
    preserved shapes, and the three lines are all returned. *)
Lemma blank_lines_counterexample :
  let content := lit "\n\n" in
  split 10 content = [[]; []; []]
  ∧ occurrences (trim []) (trim <$> split 10 content) = 3
  ∧ ¬ preserved (trim [])
  ∧ split 10 (cleanMarkdownContent content).1 = [[]; []; []].
Proof.
  split; [by vm_compute|]. split; [by vm_compute|]. split; [|by vm_compute].
  by apply isPreserved_false.
Qed.

(** C4, amended. For every document and each of its lines: a line whose
    trimmed form is the trimmed form of exactly 2 lines is never removed;
    a line that is not blank, whose trimmed form is the trimmed form of 3
    lines or more and has none of the preserved shapes is removed at every
    place it occurs. The document with lines Header, p1, Header, p2,
    Header, Page 3 is cleaned to the lines p1, p2, Page 3 in that order. *)
Theorem threshold_boundary :
  (∀ content line : str,
     line ∈ split 10 content →
     (occurrences (trim line) (trim <$> split 10 content) = 2 →
      occurrences line (split 10 (cleanMarkdownContent content).1)
      = occurrences line (split 10 content))
     ∧ (trim line ≠ [] →
        3 ≤ occurrences (trim line) (trim <$> split 10 content) →
        ¬ preserved (trim line) →
        line ∉ split 10 (cleanMarkdownContent content).1))
  ∧ split 10 (cleanMarkdownContent
                (join (lit "\n") [lit "Header"; lit "p1"; lit "Header";
                                  lit "p2"; lit "Header"; lit "Page 3"])).1
    = [lit "p1"; lit "p2"; lit "Page 3"].
Proof.
  split; [|by vm_compute].
  intros content line Hin. split.
  - intros Htwo. apply kept_line, elem_of_cleanedLines. split; [done|].
    intros [Hc _]. pose proof (counted_le (trim line) (split 10 content)). lia.
  - intros Hne Hc Hp. apply dropped_line; [done|].
    rewrite elem_of_cleanedLines. intros [_ []].
    rewrite counted_nonblank by done. by rewrite isPreserved_false.
Qed.

(** The threshold on a text where "a" is the trimmed form of 2 lines and
    "c" of 3. *)
Lemma threshold_boundary_witness :
  let content := lit "a\nb\n a\nc\nc \nc" in
  (lit "a" ∈ split 10 content
   ∧ occurrences (trim (lit "a")) (trim <$> split 10 content) = 2
   ∧ occurrences (lit "a") (split 10 (cleanMarkdownContent content).1)
     = occurrences (lit "a") (split 10 content))
  ∧ (lit "c" ∈ split 10 content
     ∧ trim (lit "c") ≠ []
     ∧ 3 ≤ occurrences (trim (lit "c")) (trim <$> split 10 content)
     ∧ ¬ preserved (trim (lit "c"))
     ∧ lit "c" ∉ split 10 (cleanMarkdownContent content).1).
Proof.
  intros content.
  assert (Ha : lit "a" ∈ split 10 content) by (vm_compute; by left).
  assert (Hc : lit "c" ∈ split 10 content) by (vm_compute; do 3 right; by left).
  assert (Hp : ¬ preserved (trim (lit "c"))) by by apply isPreserved_false.
  split.
  - split; [done|]. split; [by vm_compute|].
    apply (proj1 (proj1 threshold_boundary content (lit "a") Ha)). by vm_compute.
  - split; [done|]. split; [done|]. split; [vm_compute; lia|]. split; [done|].
    apply (proj2 (proj1 threshold_boundary content (lit "c") Hc));
      [done | vm_compute; lia | done].
Defined.

(** *** Preserved shapes *)

(** C5. For every document and every line of it whose trimmed form starts
    with "Page " and digits (in any case), starts with "[" digits "]",
    contains "doi:" (in any case) or is a run of digits, the line is never
    removed, however often it occurs: the returned text has as many copies
    of it as the document. *)
Theorem preserved_never_removed (content line : str) :
  line ∈ split 10 content →
  preserved (trim line) →
  occurrences line (split 10 (cleanMarkdownContent content).1)
  = occurrences line (split 10 content).
Proof.
  intros Hin Hp. apply kept_line, elem_of_cleanedLines. split; [done|].
  intros [_ Hnot]. by apply isPreserved_false in Hnot.
Qed.

(** The four shapes, each on 3 lines of one text. *)
Lemma preserved_never_removed_witness :
  let content :=
    lit "Page 7\n[12]\nx\nsomething doi:10.1/x\n42\nPage 7\n[12]\nx\nsomething doi:10.1/x\n42\nPage 7\n[12]\nx\nsomething doi:10.1/x\n42" in
  Forall (λ line,
      line ∈ split 10 content
      ∧ preserved (trim line)
      ∧ occurrences line (split 10 content) = 3
      ∧ occurrences line (split 10 (cleanMarkdownContent content).1) = 3)
    [lit "Page 7"; lit "[12]"; lit "something doi:10.1/x"; lit "42"].
Proof.
  intros content.
  assert (W : ∀ line,
    line ∈ split 10 content → preserved (trim line) →
    occurrences line (split 10 content) = 3 →
    line ∈ split 10 content
    ∧ preserved (trim line)
    ∧ occurrences line (split 10 content) = 3
    ∧ occurrences line (split 10 (cleanMarkdownContent content).1) = 3).
  { intros line Hin Hp Hocc. split; [done|]. split; [done|]. split; [done|].
    by rewrite (preserved_never_removed content line Hin Hp). }
  repeat apply Forall_cons_2; [..|apply Forall_nil_2]; apply W.
  - vm_compute. by left.
  - by apply (preserved_page _ (lit "Page ") (lit "7") []);
      [|by vm_compute|repeat constructor|].
  - by vm_compute.
  - vm_compute. right. by left.
  - by apply (preserved_footnote _ (lit "12") []); [|repeat constructor|].
  - by vm_compute.
  - vm_compute. do 3 right. by left.
  - by apply (preserved_doi _ (lit "something ") (lit "doi:") (lit "10.1/x")).
  - by vm_compute.
  - vm_compute. do 4 right. by left.
  - by apply preserved_number; [|repeat constructor].
  - by vm_compute.
Defined.

(** *** Order *)

(** C8, as stated, fails for [markdownToText]: the one line of "# Title"
    becomes the line "Title", which is no line of the input. *)
Lemma markdownToText_lines_counterexample :
  split 10 (lit "# Title") = [lit "# Title"]
  ∧ split 10 (markdownToText (lit "# Title")) = [lit "Title"]
  ∧ ¬ (split 10 (markdownToText (lit "# Title"))
       `sublist_of` split 10 (lit "# Title")).
Proof.
  split; [by vm_compute|]. split; [by vm_compute|].
  intros H. vm_compute in H. by apply singleton_sublist_l, list_elem_of_singleton in H.
Qed.

(** C8, amended. For every input of [cleanMarkdownContent], the lines it
    keeps, which it joins with line feeds into the returned text, are a
    subsequence of the input lines: they are the input lines, in their
    order and unchanged, that are blank or are not repetitive (fewer than 3
    lines trim to the same text, or one of the four tests accepts it). *)
Theorem cleaned_lines_subsequence (content : str) :
  (cleanMarkdownContent content).1 = join (lit "\n") (cleanedLines content)
  ∧ cleanedLines content `sublist_of` split 10 content
  ∧ cleanedLines content
    = filter (λ line,
        trim line = [] ∨
        ¬ (3 ≤ occurrences (trim line) (trim <$> split 10 content)
           ∧ isPreserved (trim line) = false))
        (split 10 content).
Proof.
  split; [done|]. split; [apply cleanedLines_sublist|].
  unfold cleanedLines. apply list_filter_iff. intros line.
  rewrite Is_true_true, keepLine_true, elem_of_repetitive.
  destruct (decide (trim line = [])) as [Hnil|Hne]; [by split; left|].
  by rewrite counted_nonblank.
Qed.

(** *** Length *)

Lemma Math_round_nonneg (x : Q) : (0 <= x)%Q → (0 <= Math_round x)%Q.
Proof.
  intros Hx. unfold Math_round.
  change 0%Q with (inject_Z 0). rewrite <- Zle_Qle.
  change 0%Z with (Qfloor 0). apply Qfloor_resp_le.
  apply Qle_trans with x; [done|].
  rewrite <- (Qplus_0_r x) at 1. apply Qplus_le_compat; [apply Qle_refl | done].
Qed.

(** C10. For every input the cleaned content is at most as long as the
    input, so that the reduction the clean-up tool reports is never
    negative. *)
Theorem cleaned_not_longer (content : str) :
  length (cleanMarkdownContent content).1 ≤ length content
  ∧ (0 <= reduction_percent content)%Q.
Proof.
  pose proof (length_cleaned content) as Hlen.
  split; [done|]. unfold reduction_percent.
  destruct (Nat.ltb_spec 0 (length content)) as [Hpos|_]; [|done].
  apply Qle_shift_div_l; [done|]. rewrite Qmult_0_l.
  apply Math_round_nonneg.
  repeat apply Qmult_le_0_compat; try done.
  unfold Qminus. rewrite <- Qle_minus_iff.
  apply Qle_shift_div_r.
  - unfold ofLength. change 0%Q with (inject_Z 0). rewrite <- Zlt_Qlt. lia.
  - rewrite Qmult_1_l. unfold ofLength. rewrite <- Zle_Qle. lia.
Qed.

(** ** parsePageSpec *)

(** The range loop has stopped once its [iterations] are used up: more
    fuel changes nothing. *)
Lemma rangeLoop_fuel n start end_ pages :
  iterations start end_ ≤ n →
  rangeLoop n start end_ pages = rangeLoop (iterations start end_) start end_ pages.
Proof.
  revert start pages. induction n as [|n IH]; intros start pages Hn.
  - by replace (iterations start end_) with 0 by lia.
  - destruct start as [|a], end_ as [|b]; try done.
    simpl. destruct (Z.leb_spec a b) as [Hle|Hgt].
    + replace (Z.to_nat (b - a + 1)) with (S (Z.to_nat (b - (a + 1) + 1))) by lia.
      simpl. rewrite (proj2 (Z.leb_le a b)) by done.
      apply (IH (Num (a + 1)%Z)). simpl in *. lia.
    + by replace (Z.to_nat (b - a + 1)) with 0 by lia.
Qed.

Lemma Set_add_Forall (P : number → Prop) x pages :
  P x → Forall P pages → Forall P (Set_add x pages).
Proof.
  intros Hx Hp. unfold Set_add. destruct (decide (x ∈ pages)); [done|].
  apply Forall_app. by repeat constructor.
Qed.

Lemma Set_add_NoDup x pages : NoDup pages → NoDup (Set_add x pages).
Proof.
  intros Hp. unfold Set_add. destruct (decide (x ∈ pages)) as [|Hx]; [done|].
  apply NoDup_app. repeat split; [done| |apply NoDup_singleton].
  intros y Hy ->%list_elem_of_singleton. done.
Qed.

Lemma rangeLoop_positive n i end_ pages :
  positive i → Forall positive pages → Forall positive (rangeLoop n i end_ pages).
Proof.
  revert i pages. induction n as [|n IH]; intros i pages Hi Hp; simpl; [done|].
  destruct (le i end_); [|done].
  apply IH; [destruct i; simpl in *; [done | lia] | by apply Set_add_Forall].
Qed.

Lemma rangeLoop_NoDup n i end_ pages :
  NoDup pages → NoDup (rangeLoop n i end_ pages).
Proof.
  revert i pages. induction n as [|n IH]; intros i pages Hp; simpl; [done|].
  destruct (le i end_); [|done]. by apply IH, Set_add_NoDup.
Qed.

Lemma lt_one_false p : lt p (Num 1) = false → positive p.
Proof. destruct p as [|z]; simpl; [done|]. intros ?%Z.ltb_ge. done. Qed.

Lemma addPart_positive pages part pages' :
  addPart pages part = Ok pages' → Forall positive pages → Forall positive pages'.
Proof.
  unfold addPart. intros H Hp.
  destruct (includes _ _).
  - destruct (startsWith _ _); [done|].
    destruct (split 45 (trim part)) as [|p0 [|p1 [|p2 ps]]]; try done.
    destruct (lt (parseInt (trim p0)) (Num 1)) eqn:Hs; [done|].
    destruct (lt (parseInt (trim p1)) (Num 1)); [done|]. simpl in H.
    destruct (gt _ _); [done|]. injection H as <-.
    by apply rangeLoop_positive; [apply lt_one_false|].
  - destruct (lt (parseInt (trim part)) (Num 1)) eqn:Hs; [done|].
    injection H as <-. by apply Set_add_Forall; [apply lt_one_false|].
Qed.

Lemma addPart_NoDup pages part pages' :
  addPart pages part = Ok pages' → NoDup pages → NoDup pages'.
Proof.
  unfold addPart. intros H Hp.
  destruct (includes _ _).
  - destruct (startsWith _ _); [done|].
    destruct (split 45 (trim part)) as [|p0 [|p1 [|p2 ps]]]; try done.
    destruct (_ || _); [done|]. destruct (gt _ _); [done|].
    injection H as <-. by apply rangeLoop_NoDup.
  - destruct (lt _ _); [done|]. injection H as <-. by apply Set_add_NoDup.
Qed.

(** What the parser does guarantee: the pages are distinct, and each of
    them is [NaN] or a number that is 1 or more. *)
Lemma parsePageSpec_pages pageSpec pages :
  parsePageSpec pageSpec = Ok pages → NoDup pages ∧ Forall positive pages.
Proof.
  unfold parsePageSpec.
  assert (∀ parts acc, NoDup acc ∧ Forall positive acc →
            addParts acc parts = Ok pages → NoDup pages ∧ Forall positive pages) as H.
  { induction parts as [|part parts IH]; intros acc [Hn Hp] Hr; simpl in Hr.
    - by injection Hr as <-.
    - destruct (addPart acc part) as [acc'|] eqn:E; [|done].
      apply (IH acc'); [|done].
      split; [by eapply addPart_NoDup | by eapply addPart_positive]. }
  apply H. split; [apply NoDup_nil_2 | done].
Qed.

(** A part without "-" that does not read as a number is taken as the
    page [NaN]: [NaN < 1] is false. *)
Lemma addPart_not_a_number pages part :
  includes (lit "-") (trim part) = false →
  parseInt (trim part) = NaN →
  addPart pages part = Ok (Set_add NaN pages).
Proof. intros Hi Hp. unfold addPart. by rewrite Hi, Hp. Qed.

Lemma split_without sep s : includes [sep] s = false → split sep s = [s].
Proof.
  induction s as [|c r IH]; [done|]. simpl.
  rewrite !orb_false_iff, andb_true_r. intros [Hc Hr].
  rewrite N.eqb_sym, Hc. rewrite IH; [done|].
  destruct r; simpl in *; [done|]. by rewrite andb_true_r in *.
Qed.

(** *** Accepted selections *)

(** C6. Ranges are inclusive and duplicates collapse: "3-5" is the pages
    3, 4, 5; "5-5" is the page 5; "1,3,5-7" is 1, 3, 5, 6, 7; "1-3,2,4" is
    1, 2, 3, 4; and " 1 , 5 - 10 " is read, after trimming, as 1, 5, 6, 7,
    8, 9, 10. Each set is listed in the order its pages were added. *)
Theorem parsePageSpec_selections :
  parsePageSpec (lit "3-5") = Ok [Num 3; Num 4; Num 5]
  ∧ parsePageSpec (lit "5-5") = Ok [Num 5]
  ∧ parsePageSpec (lit "1,3,5-7") = Ok [Num 1; Num 3; Num 5; Num 6; Num 7]
  ∧ parsePageSpec (lit "1-3,2,4") = Ok [Num 1; Num 2; Num 3; Num 4]
  ∧ parsePageSpec (lit " 1 , 5 - 10 ")
    = Ok [Num 1; Num 5; Num 6; Num 7; Num 8; Num 9; Num 10].
Proof. repeat split; by vm_compute. Qed.

(** *** Rejected selections *)

(** C1. Of the selections that are to be rejected, "-5", "5-3", "0" and
    "1-2-3" throw, but "1,abc" and "1,,3" do not: the part that is not a
    number becomes the page [NaN] and the call returns. *)
Theorem parsePageSpec_rejections :
  parsePageSpec (lit "-5") = Throw (PositiveToken (lit "-5"))
  ∧ parsePageSpec (lit "5-3") = Throw (RangeOrder (Num 5) (Num 3))
  ∧ parsePageSpec (lit "0") = Throw (PositivePage (Num 0))
  ∧ parsePageSpec (lit "1-2-3") = Throw (RangeFormat (lit "1-2-3"))
  ∧ parsePageSpec (lit "1,abc") = Ok [Num 1; NaN]
  ∧ parsePageSpec (lit "1,,3") = Ok [Num 1; NaN; Num 3].
Proof. repeat split; by vm_compute. Qed.

(** C2. The selection "abc" returns normally with the one page [NaN],
    which is not a number that is 1 or more: [1 <= NaN] is false. *)
Theorem parsePageSpec_NaN_page :
  parsePageSpec (lit "abc") = Ok [NaN] ∧ le (Num 1) NaN = false.
Proof. split; by vm_compute. Qed.

(** *** Ranges without an end *)

(** C9, as stated, fails: in "0-x" and in "1-3x" the text after the "-" is
    no numeral, yet the first selection throws and the range of the second
    contributes the pages 1, 2, 3. *)
Lemma range_end_not_numeral_counterexample :
  parsePageSpec (lit "0-x") = Throw (PositiveRange (Num 0) NaN)
  ∧ parsePageSpec (lit "1-3x") = Ok [Num 1; Num 2; Num 3].
Proof. split; by vm_compute. Qed.

(** C9, amended. A part with exactly one "-", not in front, whose text
    after the "-" does not start with a numeral ([parseInt] gives [NaN])
    and whose text before it does not read as a number below 1, neither
    throws nor adds a page; so "5-" and "1-x" return normally with no
    page. *)
Theorem range_without_end :
  (∀ (pages : list number) (part a b : str),
     split 45 (trim part) = [a; b] →
     a ≠ [] →
     lt (parseInt (trim a)) (Num 1) = false →
     parseInt (trim b) = NaN →
     addPart pages part = Ok pages)
  ∧ parsePageSpec (lit "5-") = Ok []
  ∧ parsePageSpec (lit "1-x") = Ok [].
Proof.
  split; [|split; by vm_compute].
  intros pages part a b Hsplit Ha Hstart Hend. unfold addPart.
  destruct (includes (lit "-") (trim part)) eqn:Hinc.
  - destruct (startsWith (lit "-") (trim part)) eqn:Hsw.
    + destruct (trim part) as [|c r]; [done|].
      change (lit "-") with [45%N] in Hsw. cbn [startsWith] in Hsw.
      rewrite andb_true_r in Hsw. apply N.eqb_eq in Hsw as <-.
      cbn [split] in Hsplit. rewrite N.eqb_refl in Hsplit.
      by injection Hsplit as <-.
    + rewrite Hsplit. cbv zeta. rewrite Hstart, Hend. simpl.
      unfold gt. by destruct (parseInt (trim a)).
  - apply (split_without 45) in Hinc. by rewrite Hinc in Hsplit.
Qed.

(** The part "5-" leaves the pages as they are. *)
Lemma range_without_end_witness :
  split 45 (trim (lit "5-")) = [lit "5"; []]
  ∧ lit "5" ≠ []
  ∧ lt (parseInt (trim (lit "5"))) (Num 1) = false
  ∧ parseInt (trim []) = NaN
  ∧ addPart [Num 2] (lit "5-") = Ok [Num 2].
Proof.
  split; [by vm_compute|]. split; [done|].
  split; [by vm_compute|]. split; [by vm_compute|].
  apply (proj1 range_without_end [Num 2] (lit "5-") (lit "5") []);
    [by vm_compute | done | by vm_compute | by vm_compute].
Defined.

(** ** markdownToText *)

(** C7. The plain text of
    "# Title\n\n![alt](img.png)\n[link](http://x)\n**bold**" is exactly
    "Title\n\nlink\nbold": the image is dropped whole, the link keeps its
    text and loses its target, and the heading and emphasis markers are
    stripped. *)
Theorem markdownToText_example :
  markdownToText (lit "# Title\n\n![alt](img.png)\n[link](http://x)\n**bold**")
  = lit "Title\n\nlink\nbold"
  ∧ replace imageRe (λ _, []) (lit "![alt](img.png)") = []
  ∧ replace linkRe (λ segs, default [] (segs !! 1)) (lit "[link](http://x)")
    = lit "link"
  ∧ replace emphasisRe (λ _, []) (lit "# Title") = lit " Title"
  ∧ replace emphasisRe (λ _, []) (lit "**bold**") = lit "bold".
Proof. repeat split; by vm_compute. Qed.

(** * More of the code *)

(** ** Selections in the documented format *)

Lemma digit_cases c :
  isDigit c = true →
  c ∈ [48; 49; 50; 51; 52; 53; 54; 55; 56; 57]%N.
Proof.
  unfold isDigit. rewrite andb_true_iff, !N.leb_le. intros [Hlo Hhi].
  rewrite !elem_of_cons. lia.
Qed.

Lemma digit_not_space c : isDigit c = true → isWhiteSpace c = false.
Proof.
  intros Hc%digit_cases. rewrite !elem_of_cons, elem_of_nil in Hc.
  destruct Hc as [->|[->|[->|[->|[->|[->|[->|[->|[->|[->|[]]]]]]]]]]]; done.
Qed.

Lemma dropWhile_head {A} (p : A → bool) (s : list A) :
  (∀ c, head s = Some c → p c = false) → dropWhile p s = s.
Proof. destruct s as [|c r]; [done|]. intros H. simpl. by rewrite (H c). Qed.

Lemma head_rev {A} (s : list A) : head (rev s) = last s.
Proof.
  induction s as [|x s _] using rev_ind; [done|].
  by rewrite rev_unit, last_snoc.
Qed.

(** Trimming leaves a text that neither starts nor ends with white space
    as it is. *)
Lemma trim_id s :
  (∀ c, head s = Some c → isWhiteSpace c = false) →
  (∀ c, last s = Some c → isWhiteSpace c = false) →
  trim s = s.
Proof.
  intros Hhead Hlast. unfold trim, trimStart, trimEnd.
  rewrite (dropWhile_head _ s) by done.
  rewrite dropWhile_head; [apply rev_involutive|].
  intros c Hc. apply Hlast. by rewrite <- head_rev.
Qed.

Lemma trim_digits ds : digits ds → trim ds = ds.
Proof.
  intros Hds. apply trim_id; intros c Hc; apply digit_not_space.
  - apply head_Some_elem_of in Hc. by apply (proj1 (Forall_forall _ _) Hds).
  - apply last_Some_elem_of in Hc. by apply (proj1 (Forall_forall _ _) Hds).
Qed.

Lemma takeWhile_all {A} (p : A → bool) (s : list A) :
  Forall (λ c, p c = true) s → takeWhile p s = s.
Proof. induction 1 as [|c r Hc _ IH]; [done|]. simpl. by rewrite Hc, IH. Qed.

(** [parseInt] reads a run of digits as the number it denotes. *)
Lemma parseInt_digits ds : ds ≠ [] → digits ds → parseInt ds = Num (value ds).
Proof.
  intros Hne Hds. unfold parseInt, trimStart.
  rewrite dropWhile_head; last first.
  { intros c Hc%head_Some_elem_of. apply digit_not_space.
    by apply (proj1 (Forall_forall _ _) Hds). }
  destruct ds as [|c r]; [done|].
  assert (Hc : isDigit c = true) by by apply Forall_cons in Hds as [? _].
  assert (takeWhile isDigit (c :: r) = c :: r) as Htake by by apply takeWhile_all.
  apply digit_cases in Hc. rewrite !elem_of_cons, elem_of_nil in Hc.
  destruct Hc as [->|[->|[->|[->|[->|[->|[->|[->|[->|[->|[]]]]]]]]]]];
    cbv zeta beta iota; rewrite Htake; unfold value;
    f_equal; apply Z.mul_1_l.
Qed.

Lemma includes_one c s : includes [c] s = true ↔ c ∈ s.
Proof.
  induction s as [|d r IH]; simpl.
  - split; [done | by intros ?%elem_of_nil].
  - rewrite andb_true_r, orb_true_iff, IH, elem_of_cons, N.eqb_eq. done.
Qed.

Lemma elem_of_Set_add p x pages : p ∈ Set_add x pages ↔ p = x ∨ p ∈ pages.
Proof.
  unfold Set_add. destruct (decide (x ∈ pages)) as [Hx|Hx].
  - split; [by right | by intros [->|]].
  - rewrite elem_of_app, list_elem_of_singleton. tauto.
Qed.

(** The range loop adds the numbers from [a] up to [b]. *)
Lemma elem_of_rangeLoop n a b pages p :
  p ∈ rangeLoop n (Num a) (Num b) pages
  ↔ p ∈ pages ∨ ∃ z, p = Num z ∧ (a ≤ z ≤ b)%Z ∧ (z < a + Z.of_nat n)%Z.
Proof.
  revert a pages. induction n as [|n IH]; intros a pages; cbn [rangeLoop le incr].
  - split; [by left | intros [?|(z & _ & ? & ?)]; [done | exfalso; lia]].
  - destruct (Z.leb_spec a b) as [Hle|Hgt].
    + rewrite IH, elem_of_Set_add. split.
      * intros [[->|?]|(z & -> & ? & ?)]; [right; exists a | by left | right; exists z];
          (split; [done | lia]).
      * intros [?|(z & -> & ? & ?)]; [by left; right|].
        destruct (decide (z = a)) as [->|]; [by left; left|].
        right. exists z. split; [done | lia].
    + split; [by left | intros [?|(z & _ & ? & ?)]; [done | exfalso; lia]].
Qed.

Lemma elem_of_addRange a b pages p :
  p ∈ addRange (Num a) (Num b) pages
  ↔ p ∈ pages ∨ ∃ z, p = Num z ∧ (a ≤ z ≤ b)%Z.
Proof.
  unfold addRange. rewrite elem_of_rangeLoop. simpl.
  split; intros [?|(z & -> & ?)]; [by left | right; exists z; tauto | by left |].
  right. exists z. split; [done | lia].
Qed.

Lemma digits_no c ds : isDigit c = false → digits ds → c ∉ ds.
Proof.
  intros Hc Hds Hin. apply (proj1 (Forall_forall _ _) Hds) in Hin. congruence.
Qed.

(** A well-formed part is accepted and adds the pages it stands for. *)
Lemma addPart_token pages part t :
  trim part = render t → wellFormed t →
  ∃ pages', addPart pages part = Ok pages'
    ∧ ∀ p, p ∈ pages' ↔ p ∈ pages ∨ ∃ z, covers t z ∧ p = Num z.
Proof.
  intros Htrim Hwf. unfold addPart. rewrite Htrim.
  destruct t as [ds|ds1 ds2]; cbn [render wellFormed covers] in *.
  - destruct Hwf as (Hne & Hds & Hpos).
    assert (includes (lit "-") ds = false) as ->.
    { apply not_true_iff_false. rewrite (includes_one 45%N).
      by apply digits_no. }
    rewrite parseInt_digits by done. simpl.
    rewrite (proj2 (Z.ltb_ge _ _)) by lia.
    eexists. split; [done|]. intros p. rewrite elem_of_Set_add.
    split; [intros [->|?]; [right; eauto | by left]
           | intros [?|(z & -> & ->)]; [by right | by left]].
  - destruct Hwf as (Hne1 & Hds1 & Hne2 & Hds2 & Hpos).
    assert (includes (lit "-") (ds1 ++ lit "-" ++ ds2) = true) as ->.
    { apply (includes_one 45%N). rewrite elem_of_app. right. by left. }
    assert (startsWith (lit "-") (ds1 ++ lit "-" ++ ds2) = false) as ->.
    { destruct ds1 as [|c r]; [done|]. apply Forall_cons in Hds1 as [Hc _].
      apply digit_cases in Hc. rewrite !elem_of_cons, elem_of_nil in Hc.
      by destruct Hc as [->|[->|[->|[->|[->|[->|[->|[->|[->|[->|[]]]]]]]]]]]. }
    change (ds1 ++ lit "-" ++ ds2) with (ds1 ++ 45%N :: ds2).
    rewrite split_app by by apply digits_no.
    rewrite split_one by by apply digits_no.
    cbv zeta. rewrite !trim_digits, !parseInt_digits by done.
    simpl. rewrite !(proj2 (Z.ltb_ge _ _)) by lia. simpl.
    eexists. split; [done|]. intros p. rewrite elem_of_addRange.
    split; (intros [?|(z & ? & ?)]; [by left | right; by exists z]).
Qed.



(** ** Page selection of the local server *)

Section processPdfOcr_properties.
Context {page : Type} (markdown : page → str).

Lemma filterPages_closed pageNumbers idx (pages : list page) fp fo pl :
  let kept := filter (λ x, x.2 ∈ pageNumbers) (numbered idx pages) in
  filterPages markdown pageNumbers idx pages (fp, fo, pl)
  = (fp ++ (markdown <$> kept.*1), fo ++ kept.*1, pl ++ kept.*2).
Proof.
  revert idx fp fo pl. induction pages as [|pg rest IH]; intros idx fp fo pl; simpl.
  - by rewrite !app_nil_r.
  - unfold numbered. simpl. rewrite filter_cons. simpl.
    destruct (decide (pageNumOf idx ∈ pageNumbers)) as [Hin|Hout].
    + rewrite IH. simpl. by rewrite <- !app_assoc.
    + by rewrite IH.
Qed.

Lemma numbered_snd idx (pages : list page) :
  (numbered idx pages).*2 = pageNumOf <$> seq idx (length pages).
Proof. unfold numbered. apply snd_zip. by rewrite length_fmap, length_seq. Qed.

Lemma numbered_fst idx (pages : list page) : (numbered idx pages).*1 = pages.
Proof. unfold numbered. apply fst_zip. by rewrite length_fmap, length_seq. Qed.

Lemma inRange_pageNumOf totalPages p :
  inRange totalPages p ↔ ∃ i, i < totalPages ∧ p = pageNumOf i.
Proof.
  unfold inRange, pageNumOf. split.
  - intros (z & -> & Hz). exists (Z.to_nat (z - 1)). split; [lia|]. f_equal. lia.
  - intros (i & Hi & ->). eexists. split; [done | lia].
Qed.

Lemma elem_of_allPages totalPages p :
  p ∈ addRange (Num 1) (Num (Z.of_nat totalPages)) [] ↔ inRange totalPages p.
Proof.
  rewrite elem_of_addRange. unfold inRange.
  split; [by intros [?%elem_of_nil|?] | by right].
Qed.

Lemma selectPages_Some (pages : list page) pageNumbers :
  let kept := filter (λ x, x.2 ∈ pageNumbers) (numbered 0 pages) in
  let invalidPages := filter (λ p, ¬ inRange (length pages) p) pageNumbers in
  selectPages markdown pages (Some pageNumbers)
  = {| markdownPages := markdown <$> kept.*1;
       pageObjects := kept.*1;
       pages_processed := kept.*2;
       warnings := if (0 <? length invalidPages)%nat
                   then [OutOfRange invalidPages (length pages)] else [] |}.
Proof.
  intros kept invalidPages. unfold selectPages.
  rewrite filterPages_closed. cbn [app].
  replace (filter _ pageNumbers) with invalidPages; [done|].
  apply list_filter_iff. intros p. by rewrite elem_of_allPages.
Qed.

Lemma elem_of_processed (pages : list page) pageNumbers p :
  p ∈ pages_processed (selectPages markdown pages (Some pageNumbers))
  ↔ p ∈ pageNumbers ∧ inRange (length pages) p.
Proof.
  rewrite selectPages_Some. cbn [pages_processed].
  rewrite inRange_pageNumOf, list_elem_of_fmap. split.
  - intros ([pg q] & -> & [Hq Hin]%list_elem_of_filter). split; [done|].
    apply (list_elem_of_fmap_2 snd) in Hin. rewrite numbered_snd in Hin.
    apply list_elem_of_fmap in Hin as (i & -> & Hi%elem_of_seq). exists i.
    split; [lia | done].
  - intros [Hp (i & Hi & ->)].
    assert (pageNumOf i ∈ (numbered 0 pages).*2) as Hin.
    { rewrite numbered_snd. apply list_elem_of_fmap_2, elem_of_seq. lia. }
    apply list_elem_of_fmap in Hin as ([pg q] & Hq & Hin). simpl in Hq. subst q.
    exists (pg, pageNumOf i). split; [done|]. by apply list_elem_of_filter.
Qed.

Lemma reported_warnings (pages : list page) pageNumbers :
  reported (warnings (selectPages markdown pages (Some pageNumbers)))
  = filter (λ p, ¬ inRange (length pages) p) pageNumbers.
Proof.
  rewrite selectPages_Some. cbn [warnings].
  destruct (filter _ pageNumbers) as [|p ps]; simpl; [done|].
  by rewrite app_nil_r.
Qed.


(** X3. With a selection the result follows the document, not the request:
    the kept pages are the pages of the response, in their order, whose
    number is requested; [pages_processed] are their numbers, so a
    subsequence of 1, ..., n, and the markdown pages are their markdown. *)
Theorem selection_document_order (pages : list page) (pageNumbers : list number) :
  let result := selectPages markdown pages (Some pageNumbers) in
  let kept := filter (λ x, x.2 ∈ pageNumbers) (numbered 0 pages) in
  pageObjects result = kept.*1
  ∧ pages_processed result = kept.*2
  ∧ markdownPages result = markdown <$> pageObjects result
  ∧ pageObjects result `sublist_of` pages
  ∧ pages_processed result `sublist_of` pageNumOf <$> seq 0 (length pages).
Proof.
  intros result kept. subst result. rewrite selectPages_Some.
  cbn [pageObjects pages_processed markdownPages]. fold kept.
  split; [done|]. split; [done|]. split; [done|]. split.
  - etrans; [apply fmap_sublist, sublist_filter | by rewrite numbered_fst].
  - etrans; [apply fmap_sublist, sublist_filter | by rewrite numbered_snd].
Qed.

Lemma filter_none {A} (P : A → Prop) `{!∀ x, Decision (P x)} (l : list A) :
  Forall (λ x, ¬ P x) l → filter P l = [].
Proof.
  induction 1 as [|x l Hx _ IH]; [done|]. by rewrite filter_cons_False.
Qed.

Lemma elem_of_numbered (pages : list page) x :
  x ∈ numbered 0 pages → inRange (length pages) x.2.
Proof.
  intros Hin. apply (list_elem_of_fmap_2 snd) in Hin. rewrite numbered_snd in Hin.
  apply list_elem_of_fmap in Hin as (i & -> & Hi%elem_of_seq).
  apply inRange_pageNumOf. exists i. split; [lia | done].
Qed.

(** X4. Requesting every page of the PDF gives what no selection gives:
    the same pages, the same page numbers and the same content. *)
Theorem selection_of_all (pages : list page) (pageNumbers : list number) :
  (∀ i, i < length pages → pageNumOf i ∈ pageNumbers) →
  let result := selectPages markdown pages (Some pageNumbers) in
  let whole := selectPages markdown pages None in
  pageObjects result = pageObjects whole
  ∧ pages_processed result = pages_processed whole
  ∧ markdown_content result = markdown_content whole.
Proof.
  intros Hall result whole. subst result whole.
  rewrite selectPages_Some. unfold markdown_content. simpl.
  rewrite filter_id; [by rewrite numbered_fst, numbered_snd|].
  apply Forall_forall. intros x Hx.
  apply elem_of_numbered, inRange_pageNumOf in Hx as (i & Hi & ->). by apply Hall.
Qed.

(** X5. A selection that names no page of the PDF is no error: the result
    has no page and empty content, and one warning lists the whole
    selection. *)
Theorem selection_out_of_range (pages : list page) (pageNumbers : list number) :
  pageNumbers ≠ [] →
  Forall (λ p, ¬ inRange (length pages) p) pageNumbers →
  let result := selectPages markdown pages (Some pageNumbers) in
  pageObjects result = []
  ∧ pages_processed result = []
  ∧ markdown_content result = []
  ∧ warnings result = [OutOfRange pageNumbers (length pages)].
Proof.
  intros Hne Hout result. subst result.
  rewrite selectPages_Some. unfold markdown_content. simpl.
  rewrite filter_none.
  - rewrite filter_id by done. by destruct pageNumbers.
  - apply Forall_forall. intros x Hx Hreq. apply elem_of_numbered in Hx.
    by apply (proj1 (Forall_forall _ _) Hout) in Hreq.
Qed.

End processPdfOcr_properties.

(** Three pages, all of which "2,1,3" requests. *)
Lemma selection_of_all_witness :
  let pages := [lit "one"; lit "two"; lit "three"] in
  let pageNumbers := [Num 2; Num 1; Num 3] in
  (∀ i, i < length pages → pageNumOf i ∈ pageNumbers)
  ∧ markdown_content (selectPages id pages (Some pageNumbers))
    = markdown_content (selectPages id pages None).
Proof.
  intros pages pageNumbers.
  assert (H : ∀ i, i < length pages → pageNumOf i ∈ pageNumbers).
  { intros [|[|[|i]]] Hi; [right; by left | by left | do 2 right; by left |].
    simpl in Hi. lia. }
  split; [done|].
  apply (selection_of_all id pages pageNumbers H).
Defined.

(** Two pages, of which "7,NaN" requests none. *)
Lemma selection_out_of_range_witness :
  let pages := [lit "one"; lit "two"] in
  let pageNumbers := [Num 7; NaN] in
  pageNumbers ≠ []
  ∧ Forall (λ p, ¬ inRange (length pages) p) pageNumbers
  ∧ warnings (selectPages id pages (Some pageNumbers))
    = [OutOfRange pageNumbers (length pages)].
Proof.
  intros pages pageNumbers.
  assert (H : Forall (λ p, ¬ inRange (length pages) p) pageNumbers).
  { repeat constructor; intros (z & [= <-] & ?); simpl in *; lia. }
  split; [done|]. split; [done|].
  apply (selection_out_of_range id pages pageNumbers); done.
Defined.

(** ** Replacement with a regular expression *)

(** A match takes a prefix of the text: the segments of the nodes, one
    after the other, and then the rest. *)
Lemma matchNodes_sound ns s segs rest :
  matchNodes ns s = Some (segs, rest) →
  s = concat segs ++ rest ∧ length segs = length ns.
Proof.
  revert s segs. induction ns as [|n ns IH]; intros s segs H; simpl in H.
  - by injection H as <- <-.
  - destruct n as [p|p lo greedy|].
    + destruct s as [|c r]; [done|]. destruct (p c); [|done].
      destruct (matchNodes ns r) as [[segs' rest']|] eqn:E; [|done].
      injection H as <- <-. apply IH in E as [-> E].
      split; [done | simpl; by rewrite E].
    + destruct (many p lo greedy (matchNodes ns) s) as [[seg [segs' rest']]|] eqn:E;
        [|done].
      injection H as <- <-.
      apply many_sound in E as (s' & -> & E & _). apply IH in E as [-> E].
      split; [simpl; by rewrite app_assoc | simpl; by rewrite E].
    + destruct s; [|done].
      destruct (matchNodes ns []) as [[segs' rest']|] eqn:E; [|done].
      injection H as <- <-. apply IH in E as [E1 E2].
      split; [done | simpl; by rewrite E2].
Qed.

Section replaceFrom.
Context (ns : list node) (repl : list str → str).

(** Passing over [skip] code units is dropping them. *)
Lemma replaceFrom_skip skip s :
  skip ≤ length s →
  replaceFrom ns repl skip s = replaceFrom ns repl 0 (drop skip s).
Proof.
  revert skip. induction s as [|c r IH]; intros [|k] Hk; try done.
  - simpl in Hk. lia.
  - simpl in Hk. change (replaceFrom ns repl k r = replaceFrom ns repl 0 (drop k r)).
    apply IH. lia.
Qed.

(** Where nothing matches, the code unit is copied. *)
Lemma replaceFrom_copy c r :
  matchNodes ns (c :: r) = None →
  replaceFrom ns repl 0 (c :: r) = c :: replaceFrom ns repl 0 r.
Proof. intros H. simpl. by rewrite H. Qed.

(** Where a match of one code unit or more starts, the replacement is
    written and the search goes on behind the match. *)
Lemma replaceFrom_match s segs rest :
  matchNodes ns s = Some (segs, rest) → concat segs ≠ [] →
  replaceFrom ns repl 0 s = repl segs ++ replaceFrom ns repl 0 rest.
Proof.
  intros H Hne. pose proof (matchNodes_sound _ _ _ _ H) as [Hs _].
  destruct s as [|c r]; [by destruct (concat segs)|].
  simpl. rewrite H.
  destruct (concat segs) as [|c' m] eqn:E; [done|]. simpl in *.
  injection Hs as -> ->. f_equal.
  rewrite replaceFrom_skip by (rewrite length_app; lia).
  by rewrite drop_app_length.
Qed.

(** If no replacement is longer than the match it stands for, the result
    is not longer than the text. *)
Lemma replaceFrom_length skip s :
  (∀ s' segs rest, matchNodes ns s' = Some (segs, rest) →
                   length (repl segs) ≤ length (concat segs)) →
  length (replaceFrom ns repl skip s) ≤ length s - skip.
Proof.
  intros Hrepl. revert skip. induction s as [|c r IH]; intros skip.
  - simpl. destruct skip; [|done].
    destruct (matchNodes ns []) as [[segs rest]|] eqn:E; [|done].
    pose proof (Hrepl _ _ _ E) as Hlen.
    apply matchNodes_sound in E as [E _].
    symmetry in E. apply app_eq_nil in E as [E _]. rewrite E in Hlen. done.
  - destruct skip as [|k]; [|apply IH].
    simpl. destruct (matchNodes ns (c :: r)) as [[segs rest]|] eqn:E.
    + pose proof (Hrepl _ _ _ E) as Hlen.
      apply matchNodes_sound in E as [E _].
      rewrite length_app.
      destruct (concat segs) as [|c' m] eqn:Em; simpl in *.
      * specialize (IH 0). lia.
      * injection E as -> ->. specialize (IH (length m)).
        rewrite length_app in *. lia.
    + simpl. specialize (IH 0). lia.
Qed.

(** A code unit of the result is one of the text or one of a
    replacement. *)
Lemma replaceFrom_elem (Q : N → Prop) skip s c :
  (∀ segs c, c ∈ repl segs → Q c) →
  c ∈ replaceFrom ns repl skip s → c ∈ s ∨ Q c.
Proof.
  intros Hrepl. revert skip. induction s as [|d r IH]; intros skip Hc.
  - simpl in Hc. destruct skip; [|by apply elem_of_nil in Hc].
    destruct (matchNodes ns []) as [[segs rest]|]; [|by apply elem_of_nil in Hc].
    right. by eapply Hrepl.
  - destruct skip as [|k].
    + simpl in Hc. destruct (matchNodes ns (d :: r)) as [[segs rest]|].
      * apply elem_of_app in Hc as [Hc|Hc]; [right; by eapply Hrepl|].
        destruct (length (concat segs)).
        -- apply elem_of_cons in Hc as [->|Hc]; [left; by left|].
           apply IH in Hc as [?|?]; [left; by right | by right].
        -- apply IH in Hc as [?|?]; [left; by right | by right].
      * apply elem_of_cons in Hc as [->|Hc]; [left; by left|].
        apply IH in Hc as [?|?]; [left; by right | by right].
    + apply IH in Hc as [?|?]; [left; by right | by right].
Qed.
End replaceFrom.

Lemma takeWhile_dropWhile {A} (p : A → bool) (s : list A) :
  takeWhile p s ++ dropWhile p s = s.
Proof. induction s as [|c r IH]; [done|]. simpl. destruct (p c); [by rewrite <- IH at 3|done]. Qed.

Lemma dropWhile_head_false {A} (p : A → bool) (s : list A) c :
  head (dropWhile p s) = Some c → p c = false.
Proof.
  induction s as [|d r IH]; [done|]. simpl. destruct (p d) eqn:E; [done|].
  by intros [= <-].
Qed.

(** Followed by nothing else, a greedy quantifier takes the whole run of
    its class, if that is long enough. *)
Lemma many_greedy_total {R} p lo (k : str → option R) (f : str → R) s :
  (∀ s, k s = Some (f s)) →
  many p lo true k s
  = if decide (lo ≤ length (takeWhile p s))
    then Some (takeWhile p s, f (dropWhile p s)) else None.
Proof.
  intros Hk. revert lo. induction s as [|c r IH]; intros lo.
  - destruct lo; simpl; [|done]. unfold stop. by rewrite Hk.
  - cbn [many takeWhile dropWhile]. destruct (p c) eqn:Hp.
    + cbn [length]. destruct lo as [|lo].
      * rewrite IH. rewrite !decide_True by lia. done.
      * rewrite IH. destruct (decide (lo ≤ _));
          [rewrite decide_True by lia | rewrite decide_False by lia]; done.
    + cbn [length]. destruct lo as [|lo]; [|by rewrite decide_False by lia].
      unfold stop. by rewrite Hk.
Qed.

Lemma matchNodes_run p lo s :
  matchNodes [Many p lo true] s
  = if decide (lo ≤ length (takeWhile p s))
    then Some ([takeWhile p s], dropWhile p s) else None.
Proof.
  simpl. rewrite (many_greedy_total p lo _ (λ s, ([], s))) by done.
  by destruct (decide _).
Qed.

Lemma startsWith_app p s : startsWith p s = true ↔ ∃ b, s = p ++ b.
Proof.
  revert s. induction p as [|c p IH]; intros s; simpl.
  - split; [by exists s | done].
  - destruct s as [|d s]; [split; [done | by intros (? & ?)]|].
    rewrite andb_true_iff, N.eqb_eq, IH. split.
    + intros [-> (b & ->)]. by exists b.
    + intros (b & [= -> ->]). eauto.
Qed.

(** [s.includes(p)] holds when [p] is a piece of [s]. *)
Lemma includes_app p s : includes p s = true ↔ ∃ a b, s = a ++ p ++ b.
Proof.
  induction s as [|c r IH]; simpl.
  - rewrite orb_false_r, startsWith_app. split.
    + intros (b & ->). by exists [], b.
    + intros ([|? a] & b & E); [by exists b | by destruct p].
  - rewrite orb_true_iff, startsWith_app, IH. split.
    + intros [(b & ->)|(a & b & ->)]; [by exists [], b | by exists (c :: a), b].
    + intros ([|d a] & b & E); [left; by exists b|].
      injection E as -> ->. right. by exists a, b.
Qed.

Lemma includes_piece p a s b : includes p s = true → includes p (a ++ s ++ b) = true.
Proof.
  rewrite !includes_app. intros (a' & b' & ->).
  exists (a ++ a'), (b' ++ b). by rewrite <- !app_assoc.
Qed.

(** A trimmed text is a piece of the text. *)
Lemma trim_piece s : ∃ a b, s = a ++ trim s ++ b.
Proof.
  unfold trim, trimStart, trimEnd.
  exists (takeWhile isWhiteSpace s),
         (rev (takeWhile isWhiteSpace (rev (dropWhile isWhiteSpace s)))).
  rewrite <- rev_app_distr, takeWhile_dropWhile, rev_involutive.
  by rewrite takeWhile_dropWhile.
Qed.

Lemma elem_of_trim c s : c ∈ trim s → c ∈ s.
Proof.
  intros Hc. destruct (trim_piece s) as (a & b & E). rewrite E.
  rewrite !elem_of_app. tauto.
Qed.

Lemma length_trim s : length (trim s) ≤ length s.
Proof.
  destruct (trim_piece s) as (a & b & E). rewrite E at 2.
  rewrite !length_app. lia.
Qed.

(** A trimmed text neither starts nor ends with white space. *)
Lemma trim_ends s c :
  head (trim s) = Some c ∨ last (trim s) = Some c → isWhiteSpace c = false.
Proof.
  unfold trim, trimEnd. set (t := trimStart s).
  assert (Hlast : ∀ c, last (rev (dropWhile isWhiteSpace (rev t))) = Some c →
                      isWhiteSpace c = false).
  { intros d Hd. rewrite <- head_rev, rev_involutive in Hd.
    by apply dropWhile_head_false in Hd. }
  intros [Hc|Hc]; [|by apply Hlast].
  assert (t = rev (dropWhile isWhiteSpace (rev t))
              ++ rev (takeWhile isWhiteSpace (rev t))) as Ht.
  { by rewrite <- rev_app_distr, takeWhile_dropWhile, rev_involutive. }
  destruct (rev (dropWhile isWhiteSpace (rev t))) as [|d u] eqn:E; [done|].
  simpl in Hc. injection Hc as ->.
  apply (dropWhile_head_false isWhiteSpace s). fold (trimStart s). fold t.
  by rewrite Ht.
Qed.

(** ** markdownToText on every input *)

Lemma strip_class p skip s c :
  c ∈ replaceFrom [Many p 1 true] (λ _, []) skip s → p c = false.
Proof.
  revert skip. induction s as [|d r IH]; intros skip Hc.
  - simpl in Hc. destruct skip; by apply elem_of_nil in Hc.
  - destruct skip as [|k]; [|by apply IH in Hc].
    cbn [replaceFrom] in Hc. rewrite matchNodes_run in Hc.
    cbn [takeWhile] in Hc. destruct (p d) eqn:Hd.
    + rewrite decide_True in Hc by (simpl; lia). simpl in Hc. by apply IH in Hc.
    + rewrite decide_False in Hc by (simpl; lia).
      apply elem_of_cons in Hc as [->|Hc]; [done | by apply IH in Hc].
Qed.

(** X6. The plain text holds none of the marker characters: whatever the
    markdown, no "#", "*", "_", backtick or "~" is left in the result of
    [markdownToText]. *)
Theorem markdownToText_no_markers (content : str) (c : N) :
  c ∈ lit "#*_`~" → c ∉ markdownToText content.
Proof.
  intros Hm Hc. unfold markdownToText in Hc. cbv zeta in Hc.
  apply elem_of_trim in Hc.
  apply (replaceFrom_elem _ _ (λ c, c = 10%N)) in Hc as [Hc| ->].
  - apply strip_class in Hc. unfold anyOf in Hc.
    by apply bool_decide_eq_false in Hc.
  - by vm_compute in Hm; repeat (apply elem_of_cons in Hm as [?|Hm]; [done|]);
      apply elem_of_nil in Hm.
  - intros segs d Hd. vm_compute in Hd.
    repeat (apply elem_of_cons in Hd as [?|Hd]; [done|]). by apply elem_of_nil in Hd.
Qed.

Lemma markdownToText_no_markers_witness :
  35%N ∈ lit "#*_`~" ∧ 35%N ∉ markdownToText (lit "# Title with *stars*").
Proof.
  assert (35%N ∈ lit "#*_`~") as H by (vm_compute; apply elem_of_cons; by left).
  split; [exact H | exact (markdownToText_no_markers _ _ H)].
Defined.

Lemma length_lookup_concat {A} (segs : list (list A)) i seg :
  segs !! i = Some seg → length seg ≤ length (concat segs).
Proof.
  revert i. induction segs as [|x segs IH]; intros [|i] H; try done; simpl in *.
  - injection H as ->. rewrite length_app. lia.
  - apply IH in H. rewrite length_app. lia.
Qed.

(** X7. The plain text is never longer than the markdown it is made
    from. *)
Theorem markdownToText_length (content : str) :
  length (markdownToText content) ≤ length content.
Proof.
  unfold markdownToText. cbv zeta. etrans; [apply length_trim|].
  unfold replace.
  etrans; [apply replaceFrom_length|rewrite Nat.sub_0_r].
  { intros s segs rest H. simpl in H.
    destruct (many _ _ _ _ _) as [[seg [segs' rest']]|] eqn:E; [|done].
    injection H as <- <-. apply many_sound in E as (_ & _ & _ & _ & Hlen).
    simpl. rewrite length_app. change (length (lit "\n\n")) with 2. lia. }
  etrans; [apply replaceFrom_length; intros; simpl; lia|rewrite Nat.sub_0_r].
  etrans; [apply replaceFrom_length|rewrite Nat.sub_0_r].
  { intros s segs rest _. destruct (segs !! 1) as [seg|] eqn:E; simpl; [|lia].
    by eapply length_lookup_concat. }
  etrans; [apply replaceFrom_length; intros; simpl; lia|rewrite Nat.sub_0_r]. done.
Qed.

Section collapse.
Local Abbreviation nl := (λ c : N, (c =? 10)%N).

Lemma lead_dropWhile s : lead (dropWhile nl s) = 0.
Proof.
  unfold lead. destruct (dropWhile nl s) as [|c r] eqn:E; [done|].
  simpl. by rewrite (dropWhile_head_false nl s c) by by rewrite E.
Qed.

Lemma startsWith_triple s : startsWith (lit "\n\n\n") s = true ↔ 3 ≤ lead s.
Proof.
  change (lit "\n\n\n") with [10; 10; 10]%N. unfold lead.
  destruct s as [|a [|b [|c s]]]; cbn [startsWith takeWhile];
    rewrite ?(N.eqb_sym 10);
    repeat (destruct (_ =? 10)%N; cbn [andb length takeWhile]);
    split; intros H; simpl in H; first [done | lia | exfalso; lia].
Qed.

Lemma includes_triple_cons c r :
  includes (lit "\n\n\n") (c :: r) = false
  ↔ lead (c :: r) < 3 ∧ includes (lit "\n\n\n") r = false.
Proof.
  cbn [includes]. rewrite orb_false_iff.
  rewrite <- (not_true_iff_false (startsWith _ _)), startsWith_triple. 
  split; intros [? ?]; (split; [lia | done]).
Qed.

Lemma collapse_copy c r :
  lead (c :: r) < 3 → collapse (c :: r) = c :: collapse r.
Proof.
  intros Hlead. unfold collapse, replace. apply replaceFrom_copy.
  cbn [newlinesRe nodes]. rewrite matchNodes_run.
  fold (lead (c :: r)). by rewrite decide_False by lia.
Qed.

Lemma collapse_run s :
  3 ≤ lead s → collapse s = lit "\n\n" ++ collapse (dropWhile nl s).
Proof.
  intros Hlead. unfold collapse, replace.
  apply (replaceFrom_match (nodes newlinesRe) (λ _, lit "\n\n") s
           [takeWhile nl s] (dropWhile nl s)).
  - cbn [newlinesRe nodes]. rewrite matchNodes_run.
    fold (lead s). by rewrite decide_True by lia.
  - simpl. rewrite app_nil_r. unfold lead in Hlead.
    intros E. rewrite E in Hlead. simpl in Hlead. lia.
Qed.

Lemma collapse_nil : collapse [] = [].
Proof. done. Qed.

(** After the collapse no run of line feeds is longer than 2, and a run
    that was shorter than 3 is as it was. *)
Lemma collapse_runs s :
  includes (lit "\n\n\n") (collapse s) = false
  ∧ (lead s < 3 → lead (collapse s) = lead s)
  ∧ lead (collapse s) ≤ 2.
Proof.
  remember (length s) as n eqn:Hn. revert s Hn.
  induction n as [n IH] using lt_wf_ind. intros s ->.
  destruct (decide (3 ≤ lead s)) as [Hrun|Hshort].
  - rewrite collapse_run by done.
    assert (length (dropWhile nl s) < length s) as Hlt.
    { rewrite <- (takeWhile_dropWhile nl s) at 2. rewrite length_app.
      unfold lead in Hrun. lia. }
    destruct (IH _ Hlt (dropWhile nl s) eq_refl) as (Hinc & Hsame & _).
    rewrite lead_dropWhile in Hsame. specialize (Hsame ltac:(lia)).
    change (lit "\n\n" ++ ?x) with (10%N :: 10%N :: x).
    assert (lead (10%N :: 10%N :: collapse (dropWhile nl s)) = 2) as Hlead2.
    { unfold lead in *. simpl. rewrite Hsame. reflexivity. }
    split; [|split; [lia | lia]].
    apply includes_triple_cons. split; [lia|].
    apply includes_triple_cons. split; [|done].
    unfold lead in *. simpl in *. lia.
  - destruct s as [|c r].
    { rewrite collapse_nil. unfold lead. simpl. split; [done | split; lia]. }
    rewrite collapse_copy by lia.
    destruct (IH (length r) ltac:(simpl; lia) r eq_refl) as (Hinc & Hsame & Hle).
    assert (lead (c :: collapse r) = lead (c :: r)) as Hlead.
    { unfold lead in *. simpl in *. destruct (c =? 10)%N; [|done].
      simpl in *. rewrite Hsame; [done | lia]. }
    split; [|split; [done | lia]].
    apply includes_triple_cons. split; [lia | done].
Qed.
End collapse.

(** X8. Blank lines are capped and the ends are trimmed: whatever the
    markdown, the plain text holds no three line feeds in a row, and
    neither starts nor ends with white space. *)
Theorem markdownToText_blank_lines (content : str) :
  includes (lit "\n\n\n") (markdownToText content) = false
  ∧ (∀ c, head (markdownToText content) = Some c → isWhiteSpace c = false)
  ∧ (∀ c, last (markdownToText content) = Some c → isWhiteSpace c = false).
Proof.
  split; [|split; intros c Hc; eapply trim_ends; eauto].
  unfold markdownToText. cbv zeta.
  apply not_true_iff_false. intros Hinc.
  match type of Hinc with includes _ (trim ?x) = true => 
    destruct (trim_piece x) as (a & b & E);
    pose proof (proj1 (collapse_runs _) : includes (lit "\n\n\n") x = false) as Hno
  end.
  apply (includes_piece _ a _ b) in Hinc. rewrite <- E in Hinc. congruence.
Qed.

Lemma split_length sep s : length (split sep s) = S (occurrences sep s).
Proof.
  induction s as [|c r IH]; [done|].
  rewrite occurrences_cons. simpl.
  destruct (N.eqb_spec c sep) as [->|Hne].
  - rewrite decide_True by done. simpl. by rewrite IH.
  - rewrite decide_False by done.
    pose proof (split_ne sep r) as Hr.
    destruct (split sep r) as [|h t]; [done|]. cbn [length] in *. lia.
Qed.

Lemma value_nonneg ds : digits ds → (0 ≤ value ds)%Z.
Proof.
  unfold value. intros Hds.
  assert (∀ acc, (0 ≤ acc)%Z →
            (0 ≤ foldl (λ acc d, 10 * acc + digitValue d) acc ds)%Z) as H.
  { induction Hds as [|d ds Hd _ IH]; intros acc Hacc; [done|].
    simpl. apply IH. apply digit_cases in Hd.
    rewrite !elem_of_cons, elem_of_nil in Hd. unfold digitValue.
    destruct Hd as [->|[->|[->|[->|[->|[->|[->|[->|[->|[->|[]]]]]]]]]]]; simpl; lia. }
  by apply H.
Qed.

Lemma digits_not_leading_dash ds r :
  ds ≠ [] → digits ds → startsWith (lit "-") (ds ++ r) = false.
Proof.
  intros Hne Hds. destruct ds as [|c ds]; [done|].
  apply Forall_cons in Hds as [Hc _].
  apply digit_cases in Hc. rewrite !elem_of_cons, elem_of_nil in Hc.
  by destruct Hc as [->|[->|[->|[->|[->|[->|[->|[->|[->|[->|[]]]]]]]]]]].
Qed.

(** A refused part stops the loop with its error. *)
Lemma addPart_refused pages part e :
  refused (trim part) e → addPart pages part = Throw e.
Proof.
  unfold addPart. intros Hr. destruct Hr as
    [t Hlead|t Hlead Hocc|ds Hne Hds Hv
    |ds1 ds2 Hne1 Hds1 Hne2 Hds2 Hv|ds1 ds2 Hne1 Hds1 Hne2 Hds2 Hv].
  - rewrite Hlead.
    assert (includes (lit "-") t = true) as ->; [|done].
    destruct t; simpl in *; [done|]. by rewrite Hlead.
  - rewrite Hlead.
    assert (includes (lit "-") t = true) as ->.
    { apply (includes_one 45%N). unfold occurrences in Hocc.
      destruct (filter _ t) as [|c r] eqn:E; [simpl in Hocc; lia|].
      assert (c ∈ filter (45%N =.) t) as Hc by (rewrite E; by left).
      apply list_elem_of_filter in Hc as [<- Hc]. done. }
    pose proof (split_length 45%N t) as Hlen.
    destruct (split 45 t) as [|p0 [|p1 [|p2 ps]]]; try done.
    simpl in Hlen. lia.
  - assert (includes (lit "-") ds = false) as ->.
    { apply not_true_iff_false. rewrite (includes_one 45%N).
      by apply digits_no. }
    rewrite parseInt_digits by done. by rewrite Hv.
  - assert (includes (lit "-") (ds1 ++ lit "-" ++ ds2) = true) as ->.
    { apply (includes_one 45%N). rewrite elem_of_app. right. by left. }
    rewrite digits_not_leading_dash by done.
    change (ds1 ++ lit "-" ++ ds2) with (ds1 ++ 45%N :: ds2).
    rewrite split_app by by apply digits_no.
    rewrite split_one by by apply digits_no.
    cbv zeta. rewrite !trim_digits, !parseInt_digits by done.
    simpl. by destruct Hv as [-> | ->]; rewrite ?orb_true_r.
  - assert (includes (lit "-") (ds1 ++ lit "-" ++ ds2) = true) as ->.
    { apply (includes_one 45%N). rewrite elem_of_app. right. by left. }
    rewrite digits_not_leading_dash by done.
    change (ds1 ++ lit "-" ++ ds2) with (ds1 ++ 45%N :: ds2).
    rewrite split_app by by apply digits_no.
    rewrite split_one by by apply digits_no.
    cbv zeta. rewrite !trim_digits, !parseInt_digits by done.
    simpl. rewrite !(proj2 (Z.ltb_ge _ _)) by lia. simpl.
    by rewrite (proj2 (Z.ltb_lt _ _)) by lia.
Qed.



(** The lines the filter drops are the repetitive ones. *)
Lemma elem_of_cleanedLines_repetitive content line :
  line ∈ cleanedLines content
  ↔ line ∈ split 10 content ∧ ¬ repetitive content line.
Proof.
  rewrite elem_of_cleanedLines. unfold repetitive.
  rewrite <- isPreserved_false. unfold counted.
  destruct (decide (trim line = [])) as [Hnil|Hne].
  - split; (intros [? _]; split; [done|]); [by intros [? _] | intros [? _]; lia].
  - split; (intros [? Hnot]; split; [done|]); intros ?; apply Hnot; tauto.
Qed.

Lemma cleanedLines_all content :
  cleanedLines content = split 10 content
  ↔ ∀ line, line ∈ split 10 content → ¬ repetitive content line.
Proof.
  split.
  - intros E line Hin. rewrite <- E in Hin.
    by apply elem_of_cleanedLines_repetitive in Hin as [_ ?].
  - intros Hall. unfold cleanedLines. apply filter_id, Forall_forall.
    intros line Hin.
    assert (line ∈ cleanedLines content) as Hk
      by (apply elem_of_cleanedLines_repetitive; auto).
    unfold cleanedLines in Hk. by apply list_elem_of_filter in Hk as [? _].
Qed.

Lemma blank_not_repetitive content : ¬ repetitive content [].
Proof. by intros [? _]. Qed.

(** X10. The cleaner returns the text as it is exactly when none of its
    lines is repetitive, that is when no line that is not blank and has no
    preserved shape occurs (up to surrounding white space) three times or
    more. *)
Theorem cleanMarkdownContent_unchanged (content : str) :
  (cleanMarkdownContent content).1 = content
  ↔ ∀ line, line ∈ split 10 content → ¬ repetitive content line.
Proof.
  rewrite <- cleanedLines_all. split.
  - intros E. pose proof (split_cleaned content) as Hs. rewrite E in Hs.
    destruct (cleanedLines content) as [|l ls] eqn:Ec; [|done].
    assert ([] ∈ cleanedLines content) as Hin.
    { apply elem_of_cleanedLines_repetitive.
      split; [rewrite Hs; by left | apply blank_not_repetitive]. }
    rewrite Ec in Hin. by apply elem_of_nil in Hin.
  - intros E. rewrite cleanMarkdownContent_cleanedLines, E. apply join_split.
Qed.

(** X11. Nothing repetitive is left: no line of the text the cleaner
    returns is repetitive in that text. *)
Theorem cleaned_not_repetitive (content : str) :
  let cleaned := (cleanMarkdownContent content).1 in
  Forall (λ line, ¬ repetitive cleaned line) (split 10 cleaned).
Proof.
  intros cleaned. apply Forall_forall. intros l Hin.
  destruct (decide (cleanedLines content = [])) as [Hnil|Hne].
  - unfold cleaned in Hin. rewrite split_cleaned, Hnil in Hin.
    apply list_elem_of_singleton in Hin as ->. apply blank_not_repetitive.
  - assert (l ∈ cleanedLines cleaned) as Hl.
    { unfold cleaned. rewrite cleanedLines_cleaned by done.
      unfold cleaned in Hin. rewrite split_cleaned in Hin.
      by destruct (cleanedLines content). }
    by apply elem_of_cleanedLines_repetitive in Hl as [_ ?].
Qed.

(** The share of the text that was dropped, as the handler computes it
    before rounding: between 0 and 1000 tenths of a percent. *)
Lemma reduction_bounds (c o : nat) :
  c ≤ o → 0 < o →
  (0 <= (1 - ofLength c / ofLength o) * 100 * 10
   ∧ (1 - ofLength c / ofLength o) * 100 * 10 <= 1000)%Q.
Proof.
  intros Hle Hpos.
  assert (0 < ofLength o)%Q as Ho.
  { unfold ofLength. change 0%Q with (inject_Z 0). rewrite <- Zlt_Qlt. lia. }
  assert (0 <= ofLength c / ofLength o)%Q as Hr0.
  { apply Qle_shift_div_l; [done|]. rewrite Qmult_0_l.
    unfold ofLength. change 0%Q with (inject_Z 0). rewrite <- Zle_Qle. lia. }
  assert (ofLength c / ofLength o <= 1)%Q as Hr1.
  { apply Qle_shift_div_r; [done|]. rewrite Qmult_1_l.
    unfold ofLength. rewrite <- Zle_Qle. lia. }
  split.
  - repeat apply Qmult_le_0_compat; try done.
    unfold Qminus. by rewrite <- Qle_minus_iff.
  - change 1000%Q with (1 * 100 * 10)%Q.
    repeat (apply Qmult_le_compat_r; [|done]).
    rewrite <- (Qplus_0_r 1) at 2. unfold Qminus.
    apply Qplus_le_compat; [apply Qle_refl|].
    change 0%Q with (- 0)%Q. by apply Qopp_le_compat.
Qed.


Section extractTablesFromPages_properties.
Context {page table content : Type}.
Context (tablesOf : page → option (list table)).
Context (prop : table → str → option content).
Context (truthy : content → bool) (String_ : table → content).

Local Abbreviation entry tableFormat :=
  (λ (i : nat) (x : nat * table),
     {| table_id := i; table_page := x.1;
        table_content := tableContent prop truthy String_ tableFormat x.2;
        table_format := tableFormat |}).

Lemma pushTable_closed tableFormat pageIdx tables tableId (ts : list table) :
  foldl (pushTable prop truthy String_ tableFormat pageIdx) (tables, tableId) ts
  = (tables ++ zip_with (entry tableFormat) (seq tableId (length ts))
                 ((λ t, (pageIdx + 1, t)) <$> ts),
     tableId + length ts).
Proof.
  revert tables tableId. induction ts as [|t ts IH]; intros tables tableId; simpl.
  - by rewrite app_nil_r, Nat.add_0_r.
  - rewrite IH, <- app_assoc. simpl. f_equal. lia.
Qed.

Lemma tablesFrom_closed tableFormat pageIdx (pages : list page) tables tableId :
  let found := located tablesOf pageIdx pages in
  tablesFrom tablesOf prop truthy String_ tableFormat pageIdx pages (tables, tableId)
  = (tables ++ zip_with (entry tableFormat) (seq tableId (length found)) found,
     tableId + length found).
Proof.
  revert pageIdx tables tableId.
  induction pages as [|pg rest IH]; intros pageIdx tables tableId; simpl.
  - by rewrite app_nil_r, Nat.add_0_r.
  - unfold tablesOfPage.
    assert (∀ ts, tablesOf pg = Some ts →
      foldl (pushTable prop truthy String_ tableFormat pageIdx) (tables, tableId) ts
      = match ts with
        | [] => (tables, tableId)
        | _ => foldl (pushTable prop truthy String_ tableFormat pageIdx)
                 (tables, tableId) ts
        end) as Hskip by (by intros []).
    destruct (tablesOf pg) as [ts|] eqn:E; simpl.
    + rewrite <- (Hskip ts eq_refl), pushTable_closed, IH.
      rewrite length_app, length_fmap, seq_app, zip_with_app
        by by rewrite length_seq, length_fmap.
      rewrite <- app_assoc. f_equal. lia.
    + apply IH.
Qed.

Lemma extractTables_closed (pages : list page) tableFormat :
  let found := located tablesOf 0 pages in
  extractTablesFromPages tablesOf prop truthy String_ pages tableFormat
  = zip_with (entry tableFormat) (seq 0 (length found)) found.
Proof. unfold extractTablesFromPages. by rewrite tablesFrom_closed. Qed.

Lemma elem_of_located pageIdx (pages : list page) n t :
  (n, t) ∈ located tablesOf pageIdx pages
  ↔ ∃ k pg ts, n = pageIdx + k + 1 ∧ pages !! k = Some pg
               ∧ tablesOf pg = Some ts ∧ t ∈ ts.
Proof.
  revert pageIdx. induction pages as [|pg rest IH]; intros pageIdx; simpl.
  - split; [by intros ?%elem_of_nil | by intros (k & ? & ? & _ & ? & _)].
  - rewrite elem_of_app, IH, list_elem_of_fmap. split.
    + intros [(t' & [= -> ->] & Hin)|(k & pg' & ts & -> & Hk & Hts & Hin)].
      * destruct (tablesOf pg) as [ts|] eqn:E; [|by apply elem_of_nil in Hin].
        exists 0, pg, ts. repeat split; [lia | done..].
      * exists (S k), pg', ts. repeat split; [lia | done..].
    + intros ([|k] & pg' & ts & -> & Hk & Hts & Hin); simpl in Hk.
      * injection Hk as <-. left. exists t. rewrite Hts. split; [f_equal; lia | done].
      * right. exists k, pg', ts. repeat split; [lia | done..].
Qed.

Lemma located_lower pageIdx (pages : list page) x :
  x ∈ located tablesOf pageIdx pages → pageIdx + 1 ≤ x.1.
Proof.
  destruct x as [n t]. intros (k & _ & _ & -> & _)%elem_of_located. simpl. lia.
Qed.

Lemma located_sorted pageIdx (pages : list page) i j x y :
  i ≤ j → located tablesOf pageIdx pages !! i = Some x →
  located tablesOf pageIdx pages !! j = Some y → x.1 ≤ y.1.
Proof.
  revert pageIdx i j. induction pages as [|pg rest IH]; intros pageIdx i j Hij; simpl.
  - done.
  - set (here := (λ t, (pageIdx + 1, t)) <$> default [] (tablesOf pg)).
    assert (∀ k z, here !! k = Some z → z.1 = pageIdx + 1) as Hhere.
    { intros k z Hz. apply list_elem_of_lookup_2 in Hz.
      by apply list_elem_of_fmap in Hz as (t & -> & _). }
    intros Hx Hy.
    apply lookup_app_Some in Hx as [Hx|[Hi Hx]];
      apply lookup_app_Some in Hy as [Hy|[Hj Hy]].
    + apply Hhere in Hx, Hy. lia.
    + apply Hhere in Hx. apply list_elem_of_lookup_2, located_lower in Hy. lia.
    + apply lookup_lt_Some in Hy. lia.
    + eapply (IH (S pageIdx) (i - length here) (j - length here)); [lia | done..].
Qed.

Lemma lookup_entries tableFormat (found : list (nat * table)) i e :
  zip_with (entry tableFormat) (seq 0 (length found)) found !! i = Some e
  ↔ ∃ x, found !! i = Some x ∧ e = entry tableFormat i x.
Proof.
  rewrite lookup_zip_with_Some. split.
  - intros (k & x & -> & Hk & Hx). apply lookup_seq in Hk as [-> _]. by exists x.
  - intros (x & Hx & ->). exists i, x. repeat split; [|done].
    apply lookup_seq. split; [done|]. by apply lookup_lt_Some in Hx.
Qed.

(** X13. Table entries are numbered in the order they are found: the ids
    of the entries are 0, 1, 2, ... without a gap, there is one entry for
    each table of each page, and the entries come in page order. *)
Theorem extractTables_numbered (pages : list page) (tableFormat : str) :
  let tables := extractTablesFromPages tablesOf prop truthy String_ pages tableFormat in
  (∀ i e, tables !! i = Some e → table_id e = i)
  ∧ length tables = sum_list ((λ pg, length (default [] (tablesOf pg))) <$> pages)
  ∧ (∀ i j e1 e2, i ≤ j → tables !! i = Some e1 → tables !! j = Some e2 →
       table_page e1 ≤ table_page e2).
Proof.
  intros tables. unfold tables. rewrite extractTables_closed. cbv zeta.
  split; [|split].
  - by intros i e (x & _ & ->)%lookup_entries.
  - rewrite length_zip_with, length_seq, Nat.min_id.
    generalize 0. induction pages as [|pg rest IH]; intros n; [done|].
    simpl. by rewrite length_app, length_fmap, IH.
  - intros i j e1 e2 Hij (x & Hx & ->)%lookup_entries (y & Hy & ->)%lookup_entries.
    simpl. by eapply located_sorted.
Qed.

End extractTablesFromPages_properties.

Lemma lookup_numbered {page} idx (pages : list page) i pg q :
  numbered idx pages !! i = Some (pg, q)
  → pages !! i = Some pg ∧ q = pageNumOf (idx + i).
Proof.
  unfold numbered. rewrite lookup_zip_with_Some.
  intros (pg' & q' & [= <- <-] & Hpg & Hq). split; [done|].
  rewrite list_lookup_fmap in Hq.
  destruct (seq idx (length pages) !! i) as [n|] eqn:E; [|done].
  apply lookup_seq in E as [-> _]. by injection Hq.
Qed.

(** The page objects handed on and the page numbers reported go in step. *)
Lemma selected_page {page} (markdown : page → str) (pages : list page)
    pageNumbers k pg :
  pageObjects (selectPages markdown pages pageNumbers) !! k = Some pg →
  ∃ idx, pages_processed (selectPages markdown pages pageNumbers) !! k
         = Some (pageNumOf idx)
         ∧ pages !! idx = Some pg.
Proof.
  destruct pageNumbers as [pageNumbers|].
  - rewrite selectPages_Some. cbn [pageObjects pages_processed].
    rewrite !list_lookup_fmap.
    destruct (filter _ _ !! k) as [[pg' q]|] eqn:E; [|done].
    intros [= ->].
    apply list_elem_of_lookup_2, list_elem_of_filter in E as [_ Hin].
    apply list_elem_of_lookup_1 in Hin as (idx & Hidx).
    apply lookup_numbered in Hidx as [Hpg ->]. by exists idx.
  - cbn [selectPages pageObjects pages_processed]. intros Hk. exists k.
    split; [|done]. rewrite list_lookup_fmap, lookup_seq_lt; [done|].
    by apply lookup_lt_Some in Hk.
Qed.

(** X15. Tables of a page selection: [processPdfOcr] extracts the tables
    from the pages it kept, so the [page] of a table entry is the rank of
    its page among the pages processed; the number of that page in the PDF
    is the entry of [pages_processed] at that rank. *)
Theorem selection_table_pages {page table content : Type}
    (markdown : page → str) (tablesOf : page → option (list table))
    (prop : table → str → option content) (truthy : content → bool)
    (String_ : table → content)
    (pages : list page) (pageNumbers : option (list number))
    (tableFormat : str) :
  let result := selectPages markdown pages pageNumbers in
  Forall (λ e, ∃ k idx pg ts t,
            table_page e = k + 1
            ∧ pages_processed result !! k = Some (pageNumOf idx)
            ∧ pages !! idx = Some pg
            ∧ tablesOf pg = Some ts ∧ t ∈ ts
            ∧ table_content e = tableContent prop truthy String_ tableFormat t)
    (extractTablesFromPages tablesOf prop truthy String_
       (pageObjects result) tableFormat).
Proof.
  intros result. apply Forall_forall. intros e He.
  rewrite extractTables_closed in He.
  apply list_elem_of_lookup_1 in He as (i & Hi).
  apply lookup_entries in Hi as ([n t] & Hx & ->).
  apply list_elem_of_lookup_2, elem_of_located in Hx as (k & pg & ts & -> & Hk & ? & ?).
  destruct (selected_page markdown pages pageNumbers k pg Hk) as (idx & ? & ?).
  by exists k, idx, pg, ts, t.
Qed.

(** ** Hyperlinks *)

(** Before a character that is not of its class, a greedy quantifier
    takes the whole run. *)
Lemma many_greedy_first {R} p lo (k : str → option R) ds rest x :
  Forall (λ c, p c = true) ds → lo ≤ length ds →
  (∀ c, head rest = Some c → p c = false) → k rest = Some x →
  many p lo true k (ds ++ rest) = Some (ds, x).
Proof.
  intros Hds Hlo Hrest Hk. revert lo Hlo.
  induction Hds as [|d ds Hd _ IH]; intros lo Hlo.
  - destruct lo; [|simpl in Hlo; lia]. simpl.
    destruct rest as [|c r]; cbn [many]; unfold stop.
    + by rewrite Hk.
    + rewrite (Hrest c) by done. by rewrite Hk.
  - change ((d :: ds) ++ rest) with (d :: (ds ++ rest)).
    destruct lo as [|lo]; cbn [many]; rewrite Hd.
    + by rewrite IH by lia.
    + rewrite IH; [done | simpl in Hlo; lia].
Qed.

Lemma matchNodes_One_inv p ns s segs rest :
  matchNodes (One p :: ns) s = Some (segs, rest) →
  ∃ c r segs', s = c :: r ∧ p c = true ∧ segs = [c] :: segs'
               ∧ matchNodes ns r = Some (segs', rest).
Proof.
  simpl. destruct s as [|c r]; [done|]. destruct (p c) eqn:Hp; [|done].
  destruct (matchNodes ns r) as [[segs' rest']|] eqn:E; [|done].
  intros [= <- <-]. by exists c, r, segs'.
Qed.

Lemma matchNodes_Many_inv p lo greedy ns s segs rest :
  matchNodes (Many p lo greedy :: ns) s = Some (segs, rest) →
  ∃ seg r segs', s = seg ++ r ∧ Forall (λ c, p c = true) seg ∧ lo ≤ length seg
                 ∧ segs = seg :: segs' ∧ matchNodes ns r = Some (segs', rest).
Proof.
  simpl.
  destruct (many p lo greedy (matchNodes ns) s) as [[seg [segs' rest']]|] eqn:E;
    [|done].
  intros [= <- <-]. apply many_sound in E as (r & -> & E & ? & ?).
  by exists seg, r, segs'.
Qed.

Lemma noneOf_one l d s :
  lit l = [d] → Forall (λ c, noneOf l c = true) s ↔ d ∉ s.
Proof.
  intros Hl. rewrite Forall_forall. unfold noneOf, anyOf. rewrite Hl. split.
  - intros H Hin. apply H in Hin.
    rewrite negb_true_iff, bool_decide_eq_false in Hin. apply Hin. by left.
  - intros H c Hc. rewrite negb_true_iff, bool_decide_eq_false.
    by intros ->%list_elem_of_singleton.
Qed.

(** What a match of the pattern is made of. *)
Lemma hyperlink_match s segs rest :
  matchNodes (nodes hyperlinkRe) s = Some (segs, rest) →
  ∃ t u, segs = [lit "["; t; lit "]"; lit "("; u; lit ")"]
         ∧ s = written t u ++ rest
         ∧ t ≠ [] ∧ (93%N ∉ t) ∧ u ≠ [] ∧ (41%N ∉ u).
Proof.
  cbn [hyperlinkRe nodes]. intros H.
  apply matchNodes_One_inv in H as (c1 & r1 & segs1 & -> & ->%chr_true & -> & H).
  apply matchNodes_Many_inv in H as (t & r2 & segs2 & -> & Ht & Hlt & -> & H).
  apply matchNodes_One_inv in H as (c3 & r3 & segs3 & -> & ->%chr_true & -> & H).
  apply matchNodes_One_inv in H as (c4 & r4 & segs4 & -> & ->%chr_true & -> & H).
  apply matchNodes_Many_inv in H as (u & r5 & segs5 & -> & Hu & Hlu & -> & H).
  apply matchNodes_One_inv in H as (c6 & r6 & segs6 & -> & ->%chr_true & -> & H).
  injection H as <- <-.
  exists t, u. split; [done|]. split.
  { unfold written. by rewrite <- !app_assoc. }
  apply (noneOf_one "]" 93%N) in Ht; [|done].
  apply (noneOf_one ")" 41%N) in Hu; [|done].
  repeat split; try done.
  - intros ->. simpl in Hlt. lia.
  - intros ->. simpl in Hlu. lia.
Qed.

(** A link that is written out is matched where it starts. *)
Lemma hyperlink_written t u rest :
  t ≠ [] → 93%N ∉ t → u ≠ [] → 41%N ∉ u →
  matchNodes (nodes hyperlinkRe) (written t u ++ rest)
  = Some ([lit "["; t; lit "]"; lit "("; u; lit ")"], rest).
Proof.
  intros Ht0 Ht Hu0 Hu. unfold written. rewrite <- !app_assoc.
  cbn [hyperlinkRe nodes].
  change (lit "[" ++ ?x) with (91%N :: x).
  change (lit "](" ++ ?x) with (93%N :: 40%N :: x).
  change (lit ")" ++ ?x) with (41%N :: x).
  cbn [matchNodes]. change (chr "[" 91%N) with true. cbv iota.
  rewrite (many_greedy_first _ _ _ t _ ([lit "]"; lit "("; u; lit ")"], rest)).
  - done.
  - by apply (noneOf_one "]" 93%N).
  - destruct t; [done | simpl; lia].
  - by intros c [= <-].
  - cbn [matchNodes]. change (chr "]" 93%N) with true.
    change (chr "(" 40%N) with true. cbv iota.
    rewrite (many_greedy_first _ _ _ u _ ([lit ")"], rest)).
    + done.
    + by apply (noneOf_one ")" 41%N).
    + destruct u; [done | simpl; lia].
    + by intros c [= <-].
    + done.
Qed.

Lemma exec_sound ns s segs rest :
  exec ns s = Some (segs, rest) →
  ∃ pre, s = pre ++ concat segs ++ rest
         ∧ matchNodes ns (concat segs ++ rest) = Some (segs, rest).
Proof.
  induction s as [|c r IH]; simpl.
  - destruct (matchNodes ns []) as [m|] eqn:E; [|done]. intros [= ->].
    pose proof (matchNodes_sound _ _ _ _ E) as [Hs _].
    exists []. by rewrite <- Hs.
  - destruct (matchNodes ns (c :: r)) as [m|] eqn:E.
    + intros [= ->]. pose proof (matchNodes_sound _ _ _ _ E) as [Hs _].
      exists []. by rewrite <- Hs.
    + intros (pre & -> & ?)%IH. by exists (c :: pre).
Qed.

(** Text without "[" is passed over. *)
Lemma exec_skip pre s :
  91%N ∉ pre →
  exec (nodes hyperlinkRe) (pre ++ s) = exec (nodes hyperlinkRe) s.
Proof.
  intros Hpre. induction pre as [|c pre IH]; [done|].
  change ((c :: pre) ++ s) with (c :: (pre ++ s)).
  assert (matchNodes (nodes hyperlinkRe) (c :: (pre ++ s)) = None) as Hc.
  { cbn [hyperlinkRe nodes matchNodes].
    destruct (chr "[" c) eqn:E; [|done].
    apply chr_true in E as ->. destruct Hpre. by left. }
  cbn [exec]. rewrite Hc. apply IH. intros ?. apply Hpre. by right.
Qed.

Lemma concat_hyperlink t u :
  concat [lit "["; t; lit "]"; lit "("; u; lit ")"] = written t u.
Proof. unfold written. cbn [concat]. rewrite app_nil_r. reflexivity. Qed.

Lemma length_written t u : length (written t u) = length t + length u + 4.
Proof. unfold written. rewrite !length_app. simpl. lia. Qed.

(** What [exec] finds: a written link behind some text, with the text that
    follows it. *)
Lemma exec_hyperlink s segs rest :
  exec (nodes hyperlinkRe) s = Some (segs, rest) →
  ∃ pre t u, s = pre ++ written t u ++ rest
             ∧ segs = [lit "["; t; lit "]"; lit "("; u; lit ")"]
             ∧ t ≠ [] ∧ (93%N ∉ t) ∧ u ≠ [] ∧ (41%N ∉ u).
Proof.
  intros (pre & Hs & Hm)%exec_sound.
  apply hyperlink_match in Hm as (t & u & -> & _ & ? & ? & ? & ?).
  rewrite concat_hyperlink in Hs. by exists pre, t, u.
Qed.

Section extractHyperlinksFromContent_properties.
Context (toLowerCase : str → str).

Local Abbreviation isImage := (isImageLink toLowerCase).
Local Abbreviation kept := (λ l : Hyperlink, isImage (url l) = false).

(** A hyperlink as the loops report it: its text is not empty and holds
    no "]", its address is not empty and holds no ")", and the link is
    written in the text. *)
Local Abbreviation linkOf s :=
  (λ l : Hyperlink,
     text l ≠ [] ∧ (93%N ∉ text l) ∧ url l ≠ [] ∧ (41%N ∉ url l)
     ∧ includes (written (text l) (url l)) s = true).

(** Both loops stop before the fuel of [length s + 1] calls is used up;
    the local loop reports the links the worker's loop reports, less the
    image links. *)
Lemma loops_closed s :
  ∃ all,
    (∀ fuel acc, length s < fuel →
       linkPatternLoop fuel s acc = Some (acc ++ all))
    ∧ (∀ fuel acc, length s < fuel →
         hyperlinkLoop toLowerCase fuel s acc = Some (acc ++ filter kept all))
    ∧ Forall (linkOf s) all.
Proof.
  remember (length s) as n eqn:Hn. revert s Hn.
  induction n as [n IH] using lt_wf_ind. intros s ->.
  destruct (exec (nodes hyperlinkRe) s) as [[segs rest]|] eqn:E.
  - destruct (exec_hyperlink _ _ _ E) as (pre & t & u & Hs & -> & Ht0 & Ht & Hu0 & Hu).
    assert (length rest < length s) as Hlt.
    { rewrite Hs, !length_app, length_written. lia. }
    destruct (IH _ Hlt rest eq_refl) as (found & Hw & Hl & Hfound).
    exists ({| text := t; url := u |} :: found). split; [|split].
    + intros [|fuel] acc Hfuel; [lia|]. cbn [linkPatternLoop]. rewrite E.
      cbn [lookup list_lookup default from_option id]. rewrite Hw by lia. by rewrite <- app_assoc.
    + intros [|fuel] acc Hfuel; [lia|]. cbn [hyperlinkLoop]. rewrite E.
      cbn [lookup list_lookup default from_option id]. cbv zeta. rewrite filter_cons. cbn [url].
      destruct (isImage u) eqn:Hi.
      * rewrite decide_False by done. apply Hl. lia.
      * rewrite decide_True by done. rewrite Hl by lia. by rewrite <- app_assoc.
    + constructor.
      * cbn [text url]. repeat split; try done.
        apply includes_app. exists pre, rest. by rewrite Hs.
      * eapply Forall_impl; [exact Hfound|]. intros l (? & ? & ? & ? & Hin).
        repeat split; try done. rewrite Hs, app_assoc.
        rewrite <- (app_nil_r rest). by apply includes_piece.
  - exists []. split; [|split]; [..|done].
    + intros [|fuel] acc Hfuel; [lia|]. cbn [linkPatternLoop]. rewrite E.
      by rewrite app_nil_r.
    + intros [|fuel] acc Hfuel; [lia|]. cbn [hyperlinkLoop]. rewrite E.
      by rewrite app_nil_r.
Qed.

(** X16. The loop of [extractHyperlinksFromContent] ends, and every
    hyperlink it reports is written in the text as "[text](url)", with a
    text that is not empty and holds no "]" and an address that is not
    empty and holds no ")", and is no image link. *)
Theorem extractHyperlinks_sound (markdownContent : str) :
  ∃ hyperlinks,
    extractHyperlinksFromContent toLowerCase markdownContent = Some hyperlinks
    ∧ Forall (λ l, text l ≠ [] ∧ (93%N ∉ text l) ∧ url l ≠ [] ∧ (41%N ∉ url l)
                   ∧ includes (written (text l) (url l)) markdownContent = true
                   ∧ isImageLink toLowerCase (url l) = false) hyperlinks.
Proof.
  destruct (loops_closed markdownContent) as (found & _ & Hl & Hfound).
  exists (filter kept found). split.
  - unfold extractHyperlinksFromContent. by rewrite Hl by lia.
  - apply Forall_forall. intros l [Hk Hin]%list_elem_of_filter.
    apply (proj1 (Forall_forall _ _) Hfound) in Hin.
    destruct Hin as (? & ? & ? & ? & ?). done.
Qed.

(** X17. The two servers find the same links: the hyperlinks of the local
    server are those the edge worker's loop finds in the same text, in
    the same order, less the image links. *)
Theorem extractHyperlinks_worker (content : str) :
  ∃ hyperlinks,
    workerHyperlinks content = Some hyperlinks
    ∧ extractHyperlinksFromContent toLowerCase content
      = Some (filter (λ l, isImageLink toLowerCase (url l) = false) hyperlinks).
Proof.
  destruct (loops_closed content) as (found & Hw & Hl & _).
  exists found. split.
  - unfold workerHyperlinks. by rewrite Hw by lia.
  - unfold extractHyperlinksFromContent. by rewrite Hl by lia.
Qed.

(** X18. No link is missed: a link written as "[text](url)" behind text
    without "[" is the first hyperlink found (unless it is an image
    link), and the search goes on behind it. *)
Theorem extractHyperlinks_first (pre t u post : str) :
  91%N ∉ pre → t ≠ [] → 93%N ∉ t → u ≠ [] → 41%N ∉ u →
  ∃ hyperlinks,
    extractHyperlinksFromContent toLowerCase post = Some hyperlinks
    ∧ extractHyperlinksFromContent toLowerCase (pre ++ written t u ++ post)
      = Some ((if isImageLink toLowerCase u then []
               else [{| text := t; url := u |}]) ++ hyperlinks).
Proof.
  intros Hpre Ht0 Ht Hu0 Hu.
  destruct (loops_closed post) as (found & _ & Hl & _).
  exists (filter kept found). split.
  - unfold extractHyperlinksFromContent. by rewrite Hl by lia.
  - unfold extractHyperlinksFromContent. cbn [hyperlinkLoop].
    rewrite exec_skip by done. 
    assert (exec (nodes hyperlinkRe) (written t u ++ post)
            = Some ([lit "["; t; lit "]"; lit "("; u; lit ")"], post)) as ->.
    { destruct (written t u ++ post) eqn:E; cbn [exec];
        rewrite <- E, hyperlink_written; done. }
    cbn [lookup list_lookup default from_option id]. cbv zeta.
    rewrite !length_app, length_written.
    destruct (isImage u); rewrite Hl by lia; done.
Qed.
End extractHyperlinksFromContent_properties.

(** The text "see [docs](http://x) and more". *)
Lemma extractHyperlinks_first_witness :
  let pre := lit "see " in
  let t := lit "docs" in
  let u := lit "http://x" in
  let post := lit " and more" in
  (91%N ∉ pre) ∧ t ≠ [] ∧ (93%N ∉ t) ∧ u ≠ [] ∧ (41%N ∉ u)
  ∧ ∃ hyperlinks,
      extractHyperlinksFromContent (fmap lower) post = Some hyperlinks
      ∧ extractHyperlinksFromContent (fmap lower) (pre ++ written t u ++ post)
        = Some ((if isImageLink (fmap lower) u then []
                 else [{| text := t; url := u |}]) ++ hyperlinks).
Proof.
  intros pre t u post.
  assert (91%N ∉ pre) as Hpre by (apply (bool_decide_unpack _); by vm_compute).
  assert (t ≠ []) as Ht0 by done.
  assert (93%N ∉ t) as Ht by (apply (bool_decide_unpack _); by vm_compute).
  assert (u ≠ []) as Hu0 by done.
  assert (41%N ∉ u) as Hu by (apply (bool_decide_unpack _); by vm_compute).
  repeat (split; [done|]).
  exact (extractHyperlinks_first (fmap lower) pre t u post Hpre Ht0 Ht Hu0 Hu).
Defined.

(** ** Data URLs *)

Lemma head_split sep s :
  head (split sep s) = Some (takeWhile (λ c, negb (c =? sep)%N) s).
Proof.
  induction s as [|c r IH]; [done|]. simpl.
  destruct (c =? sep)%N; [done|]. simpl.
  destruct (split sep r) as [|h t]; [done|]. simpl in *. by injection IH as ->.
Qed.

Lemma base64Data_no_comma pdfSource : 44%N ∉ base64Data pdfSource.
Proof.
  unfold base64Data. destruct (includes (lit ",") pdfSource) eqn:E.
  - destruct (split 44 pdfSource !! 1) as [x|] eqn:Ex; simpl.
    + apply list_elem_of_lookup_2 in Ex. revert x Ex.
      apply Forall_forall, split_no_sep.
    + apply (bool_decide_unpack _). by vm_compute.
  - intros Hin%(includes_one 44%N). change [44%N] with (lit ",") in Hin. congruence.
Qed.

(** X19. The PDF data URL of the edge worker: the part handed on as
    base64 holds no comma; what stands before the first comma of the
    source is taken for a data-URL header and dropped, whatever it is, and
    so is what stands behind a second comma; and a source that is the
    worker's own data URL is handed on as it is. *)
Theorem documentUrl_payload (pdfSource : str) :
  (44%N ∉ base64Data pdfSource)
  ∧ (∀ header payload,
       44%N ∉ header → pdfSource = header ++ lit "," ++ payload →
       base64Data pdfSource = takeWhile (λ c, negb (c =? 44)%N) payload)
  ∧ documentUrl (documentUrl pdfSource) = documentUrl pdfSource.
Proof.
  assert (∀ header payload, 44%N ∉ header →
            base64Data (header ++ lit "," ++ payload)
            = takeWhile (λ c, negb (c =? 44)%N) payload) as Hsplit.
  { intros header payload Hh. unfold base64Data.
    assert (includes (lit ",") (header ++ lit "," ++ payload) = true) as ->.
    { apply (includes_one 44%N). rewrite elem_of_app. right. by left. }
    change (header ++ lit "," ++ payload) with (header ++ 44%N :: payload).
    rewrite split_app by done.
    change ((header :: ?l) !! 1) with (l !! 0).
    by rewrite <- head_lookup, head_split. }
  split; [apply base64Data_no_comma|]. split.
  - intros header payload Hh ->. by apply Hsplit.
  - unfold documentUrl at 1. unfold documentUrl at 2. f_equal.
    unfold documentUrl.
    change (lit "data:application/pdf;base64," ++ base64Data pdfSource)
      with (lit "data:application/pdf;base64" ++ lit "," ++ base64Data pdfSource).
    rewrite Hsplit by (apply (bool_decide_unpack _); by vm_compute).
    apply takeWhile_all, Forall_forall. intros c Hc.
    apply negb_true_iff, N.eqb_neq. intros ->.
    by apply (base64Data_no_comma pdfSource).
Qed.

(** X20. The image data URL of both servers: a base64 source is handed on
    with "data:" in front, a header being added to a source that has
    none, and a source that has one (also the servers' own data URL) is
    handed on as it is. *)
Theorem imageUrl_data (imageSource : str) :
  startsWith (lit "data:") (imageUrl imageSource) = true
  ∧ imageUrl (imageUrl imageSource) = imageUrl imageSource
  ∧ (imageUrl imageSource = imageSource
     ↔ startsWith (lit "data:") imageSource = true).
Proof.
  unfold imageUrl.
  destruct (startsWith (lit "data:") imageSource) eqn:E; cbn [negb].
  - rewrite E. cbn [negb]. by repeat split.
  - split; [done|]. split; [done|]. split; [|done].
    intros H. apply (f_equal length) in H. rewrite length_app in H.
    simpl in H. lia.
Qed.

(** ** Output files *)

Lemma matchNodes_AtEnd_inv s segs rest :
  matchNodes [AtEnd] s = Some (segs, rest) → s = [] ∧ rest = [].
Proof. simpl. destruct s; [|done]. by intros [= <- <-]. Qed.

Section replaceFirst.
Context (ns : list node) (repl : str).

Lemma replaceFirst_here s segs rest :
  matchNodes ns s = Some (segs, rest) → replaceFirst ns repl s = repl ++ rest.
Proof. intros H. destruct s; simpl; by rewrite H. Qed.

(** Text in which no match starts is copied. *)
Lemma replaceFirst_app pre s :
  (∀ a b, pre = a ++ b → b ≠ [] → matchNodes ns (b ++ s) = None) →
  replaceFirst ns repl (pre ++ s) = pre ++ replaceFirst ns repl s.
Proof.
  induction pre as [|c pre IH]; intros Hpre; [done|].
  pose proof (Hpre [] (c :: pre) eq_refl ltac:(done)) as Hc.
  change ((c :: pre) ++ s) with (c :: (pre ++ s)) in *. cbn [replaceFirst].
  rewrite Hc. cbn [app]. f_equal.
  apply IH. intros a b -> Hb. by apply (Hpre (c :: a) b).
Qed.

Lemma replaceFirst_none s :
  (∀ a b, s = a ++ b → matchNodes ns b = None) → replaceFirst ns repl s = s.
Proof.
  intros Hs. rewrite <- (app_nil_r s) at 1. rewrite replaceFirst_app.
  - simpl. rewrite (Hs s []) by by rewrite app_nil_r. by rewrite app_nil_r.
  - intros a b -> _. rewrite app_nil_r. by apply (Hs a b).
Qed.
End replaceFirst.

(** What [/\.[^.]+$/] matches: a "." and what follows it up to the end,
    if that is not empty and holds no other ".". *)
Lemma extension_match s :
  is_Some (matchNodes (nodes extensionRe) s)
  ↔ ∃ e, s = lit "." ++ e ∧ e ≠ [] ∧ 46%N ∉ e.
Proof.
  cbn [extensionRe nodes]. split.
  - intros [[segs rest] H].
    apply matchNodes_One_inv in H as (c & r & segs1 & -> & ->%chr_true & -> & H).
    apply matchNodes_Many_inv in H as (e & r2 & segs2 & -> & He & Hle & -> & H).
    apply matchNodes_AtEnd_inv in H as [-> _]. rewrite app_nil_r.
    exists e. split; [done|]. split; [intros ->; simpl in Hle; lia|].
    by apply (noneOf_one "." 46%N).
  - intros (e & -> & He0 & He). change (lit "." ++ e) with (46%N :: e).
    cbn [matchNodes]. change (chr "." 46%N) with true. cbv iota.
    rewrite <- (app_nil_r e).
    rewrite (many_greedy_first _ _ _ e [] ([[]], [])); first done.
    + by apply (noneOf_one "." 46%N).
    + destruct e; [done | simpl; lia].
    + done.
    + done.
Qed.

Lemma extension_rest s segs rest :
  matchNodes (nodes extensionRe) s = Some (segs, rest) → rest = [].
Proof.
  cbn [extensionRe nodes]. intros H.
  apply matchNodes_One_inv in H as (c & r & segs1 & -> & _ & -> & H).
  apply matchNodes_Many_inv in H as (e & r2 & segs2 & -> & _ & _ & -> & H).
  by apply matchNodes_AtEnd_inv in H as [_ ->].
Qed.

(** A text holds no ".", or it has a last one. *)
Lemma last_dot s :
  46%N ∉ s ∨ ∃ stem e, s = stem ++ lit "." ++ e ∧ 46%N ∉ e.
Proof.
  induction s as [|c r IH]; [left; by intros ?%elem_of_nil|].
  destruct IH as [Hr|(stem & e & -> & He)].
  - destruct (decide (c = 46%N)) as [->|Hc].
    + right. by exists [], r.
    + left. by intros [?|?]%elem_of_cons.
  - right. by exists (c :: stem), e.
Qed.

(** X21. Where the image tool writes its text: the part of the path from
    its last "." on is replaced by the new extension, if something
    follows that "."; a path without "." and a path that ends with "."
    are left as they are, so that the text is written to the image's own
    path. *)
Theorem imageOutputPath_cases (basePath output_format : str) :
  let outputPath := imageOutputPath basePath output_format in
  (∃ stem e, basePath = stem ++ lit "." ++ e ∧ e ≠ [] ∧ (46%N ∉ e)
             ∧ outputPath = stem ++ extOf output_format)
  ∨ (((46%N ∉ basePath) ∨ ∃ stem, basePath = stem ++ lit ".")
     ∧ outputPath = basePath).
Proof.
  intros outputPath. unfold outputPath, imageOutputPath.
  assert (∀ b e, 46%N ∉ e → b ≠ [] →
            matchNodes (nodes extensionRe) (b ++ lit "." ++ e) = None) as Hstem.
  { intros b e He Hb.
    destruct (matchNodes _ _) as [m|] eqn:E; [|done].
    destruct (proj1 (extension_match _) (mk_is_Some _ _ E)) as (e' & Hs & _ & He').
    destruct b as [|c b]; [done|]. injection Hs as -> <-.
    destruct He'. rewrite elem_of_app. right. by left. }
  destruct (last_dot basePath) as [Hno|(stem & e & -> & He)].
  - right. split; [by left|]. apply replaceFirst_none. intros a b -> .
    destruct (matchNodes _ b) as [m|] eqn:E; [|done].
    destruct (proj1 (extension_match _) (mk_is_Some _ _ E)) as (e' & -> & _).
    destruct Hno. rewrite elem_of_app. right. by left.
  - rewrite replaceFirst_app by (intros a b _ Hb; by apply Hstem).
    destruct (decide (e = [])) as [->|He0].
    + right. split; [right; by exists stem | done].
    + left. exists stem, e. repeat split; try done. f_equal.
      destruct (proj2 (extension_match (lit "." ++ e))) as [[segs rest] E];
        [by exists e|].
      rewrite (replaceFirst_here _ _ _ _ _ E).
      apply extension_rest in E as ->. by rewrite app_nil_r.
Qed.

(** What [/\.pdf$/i] matches: the four last code units. *)
Lemma pdf_match s segs rest :
  matchNodes (nodes pdfExtRe) s = Some (segs, rest) → length s = 4 ∧ rest = [].
Proof.
  cbn [pdfExtRe nodes]. intros H.
  apply matchNodes_One_inv in H as (c1 & r1 & segs1 & -> & _ & -> & H).
  apply matchNodes_One_inv in H as (c2 & r2 & segs2 & -> & _ & -> & H).
  apply matchNodes_One_inv in H as (c3 & r3 & segs3 & -> & _ & -> & H).
  apply matchNodes_One_inv in H as (c4 & r4 & segs4 & -> & _ & -> & H).
  by apply matchNodes_AtEnd_inv in H as [-> ->].
Qed.

Lemma pdf_written x :
  sameI x (lit ".pdf") → ∃ segs, matchNodes (nodes pdfExtRe) x = Some (segs, []).
Proof.
  unfold sameI. intros Hx.
  destruct x as [|a [|b [|c [|d [|? ?]]]]]; try done.
  injection Hx as Ha Hb Hc Hd.
  apply (lower_eq_chr "." a) in Ha; [|done..].
  apply (chrI_true "p" b) in Hb. apply (chrI_true "d" c) in Hc.
  apply (chrI_true "f" d) in Hd.
  cbn [pdfExtRe nodes matchNodes]. rewrite Ha, Hb, Hc, Hd. by eexists.
Qed.

(** X22. Where the PDF tool writes its text: for a path that ends with
    ".pdf" in any case, which the tool checks before, these four
    characters are replaced by the new extension, so that the text never
    goes to the path of the PDF itself. *)
Theorem pdfOutputPath_replaced (stem x output_format : str) :
  sameI x (lit ".pdf") →
  pdfOutputPath (stem ++ x) output_format = stem ++ extOf output_format
  ∧ pdfOutputPath (stem ++ x) output_format ≠ stem ++ x.
Proof.
  intros Hx.
  assert (pdfOutputPath (stem ++ x) output_format = stem ++ extOf output_format)
    as ->.
  { unfold pdfOutputPath. rewrite replaceFirst_app.
    - destruct (pdf_written x Hx) as (segs & E).
      by rewrite (replaceFirst_here _ _ _ _ _ E), app_nil_r.
    - intros a b _ Hb. destruct (matchNodes _ _) as [[segs rest]|] eqn:E; [|done].
      apply pdf_match in E as [E _]. rewrite length_app in E.
      apply (f_equal length) in Hx. rewrite !length_fmap in Hx. simpl in Hx.
      destruct b; [done | simpl in E; lia]. }
  split; [done|]. intros Heq%app_inv_head. rewrite <- Heq in Hx.
  unfold extOf in Hx. by destruct (decide _); vm_compute in Hx.
Qed.

(** The path "/tmp/report.PDF" and the format "text". *)
Lemma pdfOutputPath_replaced_witness :
  let stem := lit "/tmp/report" in
  let x := lit ".PDF" in
  sameI x (lit ".pdf")
  ∧ pdfOutputPath (stem ++ x) (lit "text") = stem ++ extOf (lit "text")
  ∧ pdfOutputPath (stem ++ x) (lit "text") ≠ stem ++ x.
Proof.
  intros stem x.
  assert (sameI x (lit ".pdf")) as Hx by by vm_compute.
  split; [exact Hx|]. exact (pdfOutputPath_replaced stem x (lit "text") Hx).
Defined.

(** ** Structured extraction *)

